(** * mceditlib.block_copy: a shallow embedding of [sourceMaskFunc] and
      [copyBlocksIter], and the properties of the copy engine.

    The Python module copies blocks, biomes, entities and tile entities from a
    selection of one dimension into another dimension at an offset.  The
    embedding follows the source line by line:

    - numpy arrays of a section (shape (16,16,16), indexed [y][z][x]) are total
      functions on index triples; slicing gives a view (offset and shape),
      boolean-mask indexing enumerates the view in C order;
    - the dimensions live in a store indexed by a reference, so that a copy
      whose source and destination are one and the same object sees its own
      writes, as the Python objects do;
    - the generator is a step function [next] on an explicit frame;
    - calls to collaborators whose effect is outside the module (relighting,
      entity insertion) are recorded in a log, in program order. *)

From stdpp Require Import base option list gmap.
From Stdlib Require Import ZArith Lia.
Local Open Scope Z_scope.

(** ** Vectors and boxes *)

Record Vector := mkVector { vx : Z; vy : Z; vz : Z }.

Definition vadd (a b : Vector) : Vector :=
  mkVector (vx a + vx b) (vy a + vy b) (vz a + vz b).
Definition vsub (a b : Vector) : Vector :=
  mkVector (vx a - vx b) (vy a - vy b) (vz a - vz b).

(** Python's [range(lo, hi)]. *)
Definition range (lo hi : Z) : list Z := seqZ lo (hi - lo).

(** Modelled from the spec: [BoundingBox] of mceditlib.selection, an
    arbitrary-origin axis-aligned integer volume with intersection, per-axis
    size and chunk/section decomposition iterators.  The class is not part of
    block_copy.py; the definitions below are the usual ones (minimum
    inclusive, maximum exclusive, chunk and section coordinates by [>> 4]). *)
Record BoundingBox := mkBoundingBox { origin : Vector; size : Vector }.

Definition minx (b : BoundingBox) : Z := vx (origin b).
Definition miny (b : BoundingBox) : Z := vy (origin b).
Definition minz (b : BoundingBox) : Z := vz (origin b).
Definition maxx (b : BoundingBox) : Z := vx (origin b) + vx (size b).
Definition maxy (b : BoundingBox) : Z := vy (origin b) + vy (size b).
Definition maxz (b : BoundingBox) : Z := vz (origin b) + vz (size b).
Definition volume (b : BoundingBox) : Z := vx (size b) * vy (size b) * vz (size b).

Definition mincx (b : BoundingBox) : Z := minx b ≫ 4.
Definition mincy (b : BoundingBox) : Z := miny b ≫ 4.
Definition mincz (b : BoundingBox) : Z := minz b ≫ 4.
Definition maxcx (b : BoundingBox) : Z := ((maxx b - 1) ≫ 4) + 1.
Definition maxcy (b : BoundingBox) : Z := ((maxy b - 1) ≫ 4) + 1.
Definition maxcz (b : BoundingBox) : Z := ((maxz b - 1) ≫ 4) + 1.

Definition chunkPositions (b : BoundingBox) : list (Z * Z) :=
  cx ← range (mincx b) (maxcx b); cz ← range (mincz b) (maxcz b); [(cx, cz)].
Definition sectionPositions (b : BoundingBox) (cx cz : Z) : list Z :=
  range (mincy b) (maxcy b).
Definition chunkCount (b : BoundingBox) : Z :=
  (maxcx b - mincx b) * (maxcz b - mincz b).

Definition zeroBox : BoundingBox := mkBoundingBox (mkVector 0 0 0) (mkVector 0 0 0).

(** The common part of two boxes; a box of zero volume when there is none. *)
Definition intersect (a b : BoundingBox) : BoundingBox :=
  if bool_decide (minx a > maxx b ∨ maxx a < minx b ∨
                  miny a > maxy b ∨ maxy a < miny b ∨
                  minz a > maxz b ∨ maxz a < minz b)
  then zeroBox
  else
    let o := mkVector (Z.max (minx a) (minx b)) (Z.max (miny a) (miny b))
                      (Z.max (minz a) (minz b)) in
    let m := mkVector (Z.min (maxx a) (maxx b)) (Z.min (maxy a) (maxy b))
                      (Z.min (maxz a) (maxz b)) in
    mkBoundingBox o (vsub m o).

(** Modelled from the spec: [SectionBox], the box of exactly one storage
    section, identified by chunk and section coordinates. *)
Definition SectionBox (cx cy cz : Z) : BoundingBox :=
  mkBoundingBox (mkVector (cx ≪ 4) (cy ≪ 4) (cz ≪ 4)) (mkVector 16 16 16).

(** ** numpy arrays, slices and masks *)

(** A (16,16,16) array of a section, indexed [y][z][x]. *)
Definition Arr3 (A : Type) : Type := Z → Z → Z → A.

Definition set3 {A} (a : Arr3 A) (p : Z * Z * Z) (v : A) : Arr3 A :=
  λ i j k, if bool_decide (p = (i, j, k)) then v else a i j k.

(** A Python [slice(start, stop)] and the bounds it selects on an axis of
    length [len] (what [slice.indices] computes for step 1): a negative bound
    counts from the end, and both are clipped to the axis. *)
Record slice := mkslice { start : Z; stop : Z }.

Definition slice_bound (i len : Z) : Z :=
  if bool_decide (i < 0) then Z.max (i + len) 0 else Z.min i len.

Definition slice_lo (s : slice) (len : Z) : Z := slice_bound (start s) len.
Definition slice_len (s : slice) (len : Z) : Z :=
  Z.max 0 (slice_bound (stop s) len - slice_bound (start s) len).

(** The view [a[s0, s1, s2]] of a (16,16,16) array: where it starts in the
    base array and its shape. *)
Record View := mkView { lo0 : Z; lo1 : Z; lo2 : Z; n0 : Z; n1 : Z; n2 : Z }.

Definition subarray (sl : slice * slice * slice) : View :=
  let '(s0, s1, s2) := sl in
  mkView (slice_lo s0 16) (slice_lo s1 16) (slice_lo s2 16)
         (slice_len s0 16) (slice_len s1 16) (slice_len s2 16).

Definition shape (v : View) : Z * Z * Z := (n0 v, n1 v, n2 v).

Definition base_index (v : View) (p : Z * Z * Z) : Z * Z * Z :=
  let '(i, j, k) := p in (lo0 v + i, lo1 v + j, lo2 v + k).

Definition vget {A} (a : Arr3 A) (v : View) (p : Z * Z * Z) : A :=
  let '(i, j, k) := base_index v p in a i j k.

(** All indices of an array of the given shape, in C order. *)
Definition ndindex (sh : Z * Z * Z) : list (Z * Z * Z) :=
  let '(m0, m1, m2) := sh in
  i ← range 0 m0; j ← range 0 m1; k ← range 0 m2; [(i, j, k)].

(** [m[sl].nonzero()]: the indices of the true entries of the view, C order. *)
Definition nonzero3 (m : Arr3 bool) (v : View) : list (Z * Z * Z) :=
  filter (λ p, vget m v p = true) (ndindex (shape v)).

(** [a[sl][mask]]: the entries of the view selected by the mask, as a 1-d array. *)
Definition masked {A} (a : Arr3 A) (v : View) (nz : list (Z * Z * Z)) : list A :=
  (vget a v) <$> nz.

(** [a[sl][mask] = vals]: the k-th value goes to the k-th selected entry of
    the view; the base array is updated in place. *)
Definition masked_assign {A} (a : Arr3 A) (v : View) (nz : list (Z * Z * Z))
    (vals : list A) : Arr3 A :=
  foldl (λ acc pv, set3 acc (base_index v pv.1) pv.2) a (zip nz vals).

(** [b.nonzero()] of a 1-d boolean array. *)
Definition nonzero1 (b : list bool) : list nat :=
  (filter (λ kb, kb.2 = true) (zip (seq 0 (length b)) b)).*1.

(** [a[idx]] for a 1-d array and an index array. *)
Definition take_at (a : list Z) (idx : list nat) : list Z :=
  (λ k, default 0 (a !! k)) <$> idx.

(** ** The type mask: [sourceMaskFunc] *)

(** An integer index on an axis of length [n]: negative indices count from the
    end, anything outside [-n, n) raises IndexError ([None]). *)
Definition np_index (n i : Z) : option Z :=
  if bool_decide (0 ≤ i < n) then Some i
  else if bool_decide (- n ≤ i < 0) then Some (i + n)
  else None.

(** A loop over a list in the error monad: the first failure aborts. *)
Fixpoint foldM {A S} (f : A → S → option S) (l : list A) (s : S) : option S :=
  match l with
  | [] => Some s
  | x :: l' => s' ← f x s; foldM f l' s'
  end.

(** [typemask[blocksToCopy] = 1] on [typemask = numpy.zeros(id_limit, bool)]. *)
Definition typemask_set (id : Z) (typemask : list bool) : option (list bool) :=
  k ← np_index (Z.of_nat (length typemask)) id;
  Some (<[Z.to_nat k := true]> typemask).

Definition make_typemask (id_limit : Z) (blocksToCopy : list Z) : option (list bool) :=
  foldM typemask_set blocksToCopy (replicate (Z.to_nat id_limit) false).

(** [typemask[t]] for one block id. *)
Definition typemask_at (typemask : list bool) (t : Z) : option bool :=
  k ← np_index (Z.of_nat (length typemask)) t; typemask !! Z.to_nat k.

(** A boolean array as the mask functions return it: of the section's shape,
    or [numpy.ones((1,), bool)], which broadcasts. *)
Inductive MaskArr :=
| Mask3 (m : Arr3 bool)
| Mask1 (b : bool).

(** [typemask[sourceBlocks]]: every voxel's id is looked up; one id outside
    the table raises. *)
Definition maskedSourceMask (typemask : list bool) (sourceBlocks : Arr3 Z) : option MaskArr :=
  if forallb (λ p, bool_decide (is_Some (typemask_at typemask (sourceBlocks p.1.1 p.1.2 p.2))))
             (ndindex (16, 16, 16))
  then Some (Mask3 (λ i j k, default false (typemask_at typemask (sourceBlocks i j k))))
  else None.

Definition unmaskedSourceMask (_sourceBlocks : Arr3 Z) : option MaskArr :=
  Some (Mask1 true).

Definition sourceMaskFunc (id_limit : Z) (blocksToCopy : option (list Z))
    : option (Arr3 Z → option MaskArr) :=
  match blocksToCopy with
  | Some l => typemask ← make_typemask id_limit l; Some (maskedSourceMask typemask)
  | None => Some unmaskedSourceMask
  end.

(** [selectionMask & typeMask], with broadcasting of a (1,) array. *)
Definition mask_and (selectionMask : Arr3 bool) (typeMask : MaskArr) : Arr3 bool :=
  match typeMask with
  | Mask3 m => λ i j k, selectionMask i j k && m i j k
  | Mask1 b => λ i j k, selectionMask i j k && b
  end.

(** [m.any(axis=0)]: a (16,16) array indexed [z][x]. *)
Definition any_axis0 (m : Arr3 bool) : Z → Z → bool :=
  λ j k, existsb (λ i, m i j k) (range 0 16).

(** ** The data model: sections, chunks, dimensions *)

Record Section := mkSection { Blocks : Arr3 Z; Data : Arr3 Z }.

(** An entity or tile-entity reference: its Position and its remaining
    content, which the copy never inspects.  Positions are taken on the block
    grid. *)
Record EntityRef := mkEntityRef { Position : Vector; nbt : Z }.

Definition copyWithOffset (e : EntityRef) (copyOffset : Vector) : EntityRef :=
  mkEntityRef (vadd (Position e) copyOffset) (nbt e).

(** A chunk: its sections by section height, its entity and tile-entity lists,
    the optional biome array (XZ) and the dirty flag. *)
Record Chunk := mkChunk {
  sections : gmap Z Section;
  Entities : list EntityRef;
  TileEntities : list EntityRef;
  Biomes : option (Z → Z → Z);
  dirty : bool }.

(** The registry of a dimension: the brightness and opacity lookup tables. *)
Record BlockTypes := mkBlockTypes { brightness : Z → Z; opacity : Z → Z }.

(** A dimension: its chunks by chunk position and its registry.  The storage
    layer decides what a chunk or section created on demand looks like:
    [newChunkBiomes] is the biome array of a chunk made by
    [getChunk(create=True)], [newSection cy] is the section made by
    [getSection(cy, create=True)], [None] where the format holds no section
    at that height (the [destSection is None] branch of the source). *)
Record Dimension := mkDimension {
  chunks : gmap (Z * Z) Chunk;
  blocktypes : BlockTypes;
  newChunkBiomes : option (Z → Z → Z);
  newSection : Z → option Section }.

(** Modelled from the spec: the caller-supplied [Selection]: origin and size
    of its bounds, the chunk positions it covers, its per-section mask
    (nullable: a section without overlap yields none) and its
    point-containment test, which is the true shape test. *)
Record Selection := mkSelection {
  sel_origin : Vector;
  sel_size : Vector;
  sel_chunkPositions : list (Z * Z);
  section_mask : Z → Z → Z → option (Arr3 bool);
  contains : Vector → bool }.

(** What the operation does to the outside, in program order. *)
Inductive Event :=
| EvWrite (dim : nat) (cpos : Z * Z) (cy : Z)
| EvRelight (dim : nat) (x y z : list Z)
| EvSetBiomes (dim : nat) (x z : list Z) (vals : list Z)
| EvAddEntity (dim : nat) (e : EntityRef)
| EvAddTileEntity (dim : nat) (e : EntityRef).

(** The store of dimension objects and the log of effects. *)
Record World := mkWorld { dims : nat → Dimension; log : list Event }.

Definition set_dim (w : World) (d : nat) (dm : Dimension) : World :=
  mkWorld (λ d', if bool_decide (d' = d) then dm else dims w d') (log w).
Definition emit (w : World) (e : Event) : World :=
  mkWorld (dims w) (log w ++ [e]).

Definition set_chunks (dm : Dimension) (m : gmap (Z * Z) Chunk) : Dimension :=
  mkDimension m (blocktypes dm) (newChunkBiomes dm) (newSection dm).
Definition put_chunk (w : World) (d : nat) (cpos : Z * Z) (ch : Chunk) : World :=
  set_dim w d (set_chunks (dims w d) (<[cpos := ch]> (chunks (dims w d)))).

Definition set_sections (ch : Chunk) (m : gmap Z Section) : Chunk :=
  mkChunk m (Entities ch) (TileEntities ch) (Biomes ch) (dirty ch).
Definition set_dirty (ch : Chunk) (b : bool) : Chunk :=
  mkChunk (sections ch) (Entities ch) (TileEntities ch) (Biomes ch) b.
Definition set_Biomes (ch : Chunk) (b : option (Z → Z → Z)) : Chunk :=
  mkChunk (sections ch) (Entities ch) (TileEntities ch) b (dirty ch).

(** Modelled from the spec: the collaborator interface of a dimension and of a
    chunk ([containsChunk], [getChunk], [getSection], [sectionPositions]):
    chunk-existence test, chunk fetch with optional creation, section fetch
    with optional creation, section-position enumeration. *)
Definition containsChunk (dm : Dimension) (cpos : Z * Z) : bool :=
  bool_decide (is_Some (chunks dm !! cpos)).

Definition freshChunk (dm : Dimension) : Chunk :=
  mkChunk ∅ [] [] (newChunkBiomes dm) false.

(** [dim.getChunk(cx, cz, create=True)]: the chunk is made if it is absent. *)
Definition getChunk_create (w : World) (d : nat) (cpos : Z * Z) : World :=
  match chunks (dims w d) !! cpos with
  | Some _ => w
  | None => put_chunk w d cpos (freshChunk (dims w d))
  end.

Definition chunk_sectionPositions (ch : Chunk) : list Z := (map_to_list (sections ch)).*1.

(** [chunk.getSection(cy)]. *)
Definition getSection (w : World) (d : nat) (cpos : Z * Z) (cy : Z) : option Section :=
  ch ← chunks (dims w d) !! cpos; sections ch !! cy.

(** [chunk.getSection(cy, create=True)] on the chunk at [cpos]: the section,
    made if absent and the format allows it, and the store after that. *)
Definition getSection_create (w : World) (d : nat) (cpos : Z * Z) (cy : Z)
    : option (Section * World) :=
  ch ← chunks (dims w d) !! cpos;
  match sections ch !! cy with
  | Some sec => Some (sec, w)
  | None =>
      sec ← newSection (dims w d) cy;
      Some (sec, put_chunk w d cpos (set_sections ch (<[cy := sec]> (sections ch))))
  end.

(** The section object at [cpos], [cy] gets new arrays (an in-place write). *)
Definition put_section (w : World) (d : nat) (cpos : Z * Z) (cy : Z) (sec : Section) : World :=
  match chunks (dims w d) !! cpos with
  | Some ch => put_chunk w d cpos (set_sections ch (<[cy := sec]> (sections ch)))
  | None => w
  end.

(** Modelled from the spec: the bulk column write of a dimension,
    [dim.setBlocks(x, 1, z, Biomes=vals)]: column k of the call gets biome
    [vals[k]] in the chunk that holds it, where that chunk exists and has a
    biome array. *)
Definition setBiome (dm : Dimension) (x z v : Z) : Dimension :=
  match chunks dm !! (x ≫ 4, z ≫ 4) with
  | Some ch =>
      match Biomes ch with
      | Some b =>
          let b' := λ i j, if bool_decide ((i, j) = (Z.land x 15, Z.land z 15)) then v else b i j in
          set_chunks dm (<[(x ≫ 4, z ≫ 4) := set_Biomes ch (Some b')]> (chunks dm))
      | None => dm
      end
  | None => dm
  end.

Definition setBlocks_Biomes (dm : Dimension) (x z vals : list Z) : Dimension :=
  foldl (λ acc c, setBiome acc c.1.1 c.1.2 c.2) dm (zip (zip x z) vals).

(** ** The arguments and the frame of [copyBlocksIter] *)

(** [updateLights]: [False], a true value other than "all", or "all". *)
Inductive LightMode := LightsOff | LightsPerWrite | LightsAll.

Record CopyArgs := mkCopyArgs {
  destDim : nat;
  sourceDim : nat;
  sourceSelection : Selection;
  destinationPoint : Vector;
  blocksToCopy : option (list Z);
  entities : bool;
  create : bool;
  biomes : bool;
  updateLights : LightMode }.

(** The local variables of the generator that live across loop iterations.
    The three parallel lists allChangedX, allChangedY, allChangedZ are kept as
    one list of triples. *)
Record Frame := mkFrame {
  world : World;
  i : Z;
  entitiesCopied : Z;
  tileEntitiesCopied : Z;
  entitiesSeen : Z;
  tileEntitiesSeen : Z;
  allChanged : list (list Z * list Z * list Z);
  sourceBiomeMask : option (Z → Z → bool) }.

Definition with_world (s : Frame) (w : World) : Frame :=
  mkFrame w (i s) (entitiesCopied s) (tileEntitiesCopied s) (entitiesSeen s)
          (tileEntitiesSeen s) (allChanged s) (sourceBiomeMask s).
Definition with_i (s : Frame) (n : Z) : Frame :=
  mkFrame (world s) n (entitiesCopied s) (tileEntitiesCopied s) (entitiesSeen s)
          (tileEntitiesSeen s) (allChanged s) (sourceBiomeMask s).
Definition with_allChanged (s : Frame) (l : list (list Z * list Z * list Z)) : Frame :=
  mkFrame (world s) (i s) (entitiesCopied s) (tileEntitiesCopied s) (entitiesSeen s)
          (tileEntitiesSeen s) l (sourceBiomeMask s).
Definition with_sourceBiomeMask (s : Frame) (m : option (Z → Z → bool)) : Frame :=
  mkFrame (world s) (i s) (entitiesCopied s) (tileEntitiesCopied s) (entitiesSeen s)
          (tileEntitiesSeen s) (allChanged s) m.
Definition with_entityCounts (s : Frame) (copied seen : Z) : Frame :=
  mkFrame (world s) (i s) copied (tileEntitiesCopied s) seen
          (tileEntitiesSeen s) (allChanged s) (sourceBiomeMask s).
Definition with_tileEntityCounts (s : Frame) (copied seen : Z) : Frame :=
  mkFrame (world s) (i s) (entitiesCopied s) copied (entitiesSeen s)
          seen (allChanged s) (sourceBiomeMask s).

Definition copyOffset (a : CopyArgs) : Vector :=
  vsub (destinationPoint a) (sel_origin (sourceSelection a)).

(** What block_copy.py imports from mceditlib.blocktypes: the id upper bound
    and the converter factory, taking (destination registry, source registry)
    to a pure function on (type, data) pairs, applied voxel by voxel. *)
Record BlockTypesModule := mkBlockTypesModule {
  id_limit : Z;
  blocktypeConverter : BlockTypes → BlockTypes → Z → Z → Z * Z }.

(** ** [copyBlocksIter], innermost loop body: one destination section
    (source lines 124-191) *)

Definition changedLight_of (bt : BlockTypes) (oldIds newIds : list Z) : list bool :=
  zip_with (λ o n, bool_decide (brightness bt o ≠ brightness bt n)
                   || bool_decide (opacity bt o ≠ opacity bt n)) oldIds newIds.

Definition destSlices_of (inter : BoundingBox) (destCpos : Z * Z) (destCy : Z)
    : slice * slice * slice :=
  (mkslice (miny inter - (destCy ≪ 4)) (maxy inter - (destCy ≪ 4)),
   mkslice (minz inter - (destCpos.2 ≪ 4)) (maxz inter - (destCpos.2 ≪ 4)),
   mkslice (minx inter - (destCpos.1 ≪ 4)) (maxx inter - (destCpos.1 ≪ 4))).

Definition sourceSlices_of (sourceIntersect : BoundingBox) (sourceCpos : Z * Z) (sourceCy : Z)
    : slice * slice * slice :=
  (mkslice (miny sourceIntersect - (sourceCy ≪ 4)) (maxy sourceIntersect - (sourceCy ≪ 4)),
   mkslice (minz sourceIntersect - (sourceCpos.2 ≪ 4)) (maxz sourceIntersect - (sourceCpos.2 ≪ 4)),
   mkslice (minx sourceIntersect - (sourceCpos.1 ≪ 4)) (maxx sourceIntersect - (sourceCpos.1 ≪ 4))).

(** The lighting part of one write (source lines 167-191). *)
Definition update_lights (a : CopyArgs) (inter : BoundingBox)
    (nz : list (Z * Z * Z)) (changedLight : list bool) (s : Frame) : Frame :=
  match updateLights a with
  | LightsOff => s
  | mode =>
      let changedFlat := nonzero1 changedLight in
      if bool_decide (length changedFlat = 0%nat) then s
      else
        (* x, y, z = sourceMaskPart.nonzero() *)
        let x := nz.*1.*1 in
        let y := nz.*1.*2 in
        let z := nz.*2 in
        let changedX := (λ v, v + minx inter) <$> take_at x changedFlat in
        let changedY := (λ v, v + miny inter) <$> take_at y changedFlat in
        let changedZ := (λ v, v + minz inter) <$> take_at z changedFlat in
        match mode with
        | LightsAll => with_allChanged s (allChanged s ++ [(changedX, changedY, changedZ)])
        | _ => with_world s (emit (world s) (EvRelight (destDim a) changedX changedY changedZ))
        end
  end.

(** The box of the source chunk section that the intersection is read from
    (source line 141). *)
Definition cell_sourceIntersect (a : CopyArgs) (inter : BoundingBox) : BoundingBox :=
  mkBoundingBox (vsub (origin inter) (copyOffset a)) (size inter).

(** The destination section after the masked write of one cell (source lines
    163-165). *)
Definition written_section (convertBlocks : Z → Z → Z * Z) (sourceSection destSection : Section)
    (sv dv : View) (nz : list (Z * Z * Z)) : Section :=
  mkSection
    (masked_assign (Blocks destSection) dv nz
       ((λ p, (convertBlocks (vget (Blocks sourceSection) sv p) (vget (Data sourceSection) sv p)).1) <$> nz))
    (masked_assign (Data destSection) dv nz
       ((λ p, (convertBlocks (vget (Blocks sourceSection) sv p) (vget (Data sourceSection) sv p)).2) <$> nz)).

(** Conversion, light comparison, masked write and lighting of one cell, given
    the two views and the selected positions (source lines 152-191). *)
Definition write_cell (a : CopyArgs) (convertBlocks : Z → Z → Z * Z) (inter : BoundingBox)
    (sv dv : View) (sourceMaskPart : list (Z * Z * Z)) (sourceSection destSection : Section)
    (destCpos : Z * Z) (destCy : Z) (w1 : World) (s : Frame) : option Frame :=
  let convertedSourceBlocks : list Z :=
    (λ p, (convertBlocks (vget (Blocks sourceSection) sv p) (vget (Data sourceSection) sv p)).1)
      <$> sourceMaskPart in
  (* a boolean index must have the shape of the indexed array *)
  if bool_decide (shape dv = shape sv) then
    let bt := blocktypes (dims w1 (destDim a)) in
    let changedLight :=
      changedLight_of bt (masked (Blocks destSection) dv sourceMaskPart) convertedSourceBlocks in
    let destSection' :=
      written_section convertBlocks sourceSection destSection sv dv sourceMaskPart in
    let w2 := emit (put_section w1 (destDim a) destCpos destCy destSection')
                   (EvWrite (destDim a) destCpos destCy) in
    Some (update_lights a inter sourceMaskPart changedLight (with_world s w2))
  else None.

Definition copy_cell (a : CopyArgs) (convertBlocks : Z → Z → Z * Z)
    (sourceCpos : Z * Z) (sourceCy : Z) (sourceMask : Arr3 bool) (destBox : BoundingBox)
    (destCpos : Z * Z) (destCy : Z) (s : Frame) : option Frame :=
  let destSectionBox := SectionBox destCpos.1 destCy destCpos.2 in
  let inter := intersect destSectionBox destBox in
  if bool_decide (volume inter = 0) then Some s
  else
    (* destChunk was fetched with creation by the enclosing loop *)
    _ ← chunks (dims (world s) (destDim a)) !! destCpos;
    match getSection_create (world s) (destDim a) destCpos destCy with
    | None => Some s
    | Some (destSection, w1) =>
        let destSlices := destSlices_of inter destCpos destCy in
        let sourceIntersect := cell_sourceIntersect a inter in
        let sourceSlices := sourceSlices_of sourceIntersect sourceCpos sourceCy in
        (* the arrays of the source section object, as they are now *)
        sourceSection ← getSection w1 (sourceDim a) sourceCpos sourceCy;
        let sv := subarray sourceSlices in
        let dv := subarray destSlices in
        let sourceMaskPart := nonzero3 sourceMask sv in
        write_cell a convertBlocks inter sv dv sourceMaskPart sourceSection destSection
                   destCpos destCy w1 s
    end.

(** One destination chunk (source lines 118-193). *)
Definition mark_dirty (w : World) (d : nat) (cpos : Z * Z) : World :=
  match chunks (dims w d) !! cpos with
  | Some ch => put_chunk w d cpos (set_dirty ch true)
  | None => w
  end.

Definition copy_dest_chunk (a : CopyArgs) (convertBlocks : Z → Z → Z * Z)
    (sourceCpos : Z * Z) (sourceCy : Z) (sourceMask : Arr3 bool) (destBox : BoundingBox)
    (destCpos : Z * Z) (s : Frame) : option Frame :=
  if negb (create a) && negb (containsChunk (dims (world s) (destDim a)) destCpos)
  then Some s
  else
    let s1 := with_world s (getChunk_create (world s) (destDim a) destCpos) in
    s2 ← foldM (copy_cell a convertBlocks sourceCpos sourceCy sourceMask destBox destCpos)
               (sectionPositions destBox destCpos.1 destCpos.2) s1;
    Some (with_world s2 (mark_dirty (world s2) (destDim a) destCpos)).

(** One source section (source lines 98-193). *)
Definition or_mask (m : option (Z → Z → bool)) (c : Z → Z → bool) : option (Z → Z → bool) :=
  (λ m0 j k, m0 j k || c j k) <$> m.

Definition copy_section (a : CopyArgs) (makeSourceMask : Arr3 Z → option MaskArr)
    (convertBlocks : Z → Z → Z * Z) (sourceCpos : Z * Z) (hasBiomes : bool)
    (sourceCy : Z) (s : Frame) : option Frame :=
  match getSection (world s) (sourceDim a) sourceCpos sourceCy with
  | None => Some s
  | Some sourceSection =>
      match section_mask (sourceSelection a) sourceCpos.1 sourceCy sourceCpos.2 with
      | None => Some s
      | Some selectionMask =>
          typeMask ← makeSourceMask (Blocks sourceSection);
          let sourceMask := mask_and selectionMask typeMask in
          let s1 := if hasBiomes
                    then with_sourceBiomeMask s (or_mask (sourceBiomeMask s) (any_axis0 sourceMask))
                    else s in
          let sectionBox := SectionBox sourceCpos.1 sourceCy sourceCpos.2 in
          let destBox := mkBoundingBox (vadd (origin sectionBox) (copyOffset a)) (size sectionBox) in
          foldM (copy_dest_chunk a convertBlocks sourceCpos sourceCy sourceMask destBox)
                (chunkPositions destBox) s1
      end
  end.

(** Biome copy of one source chunk (source lines 196-200). *)
Definition nonzero2 (m : Z → Z → bool) : list (Z * Z) :=
  filter (λ p, m p.1 p.2 = true) (i ← range 0 16; j ← range 0 16; [(i, j)]).

Definition copy_biomes (a : CopyArgs) (sourceCpos : Z * Z) (s : Frame) : option Frame :=
  sourceChunk ← chunks (dims (world s) (sourceDim a)) !! sourceCpos;
  sourceBiomes ← Biomes sourceChunk;
  mask ← sourceBiomeMask s;
  let nzb := nonzero2 mask in
  let bx := nzb.*1 in
  let bz := nzb.*2 in
  let wbx := (λ v, v + (sourceCpos.1 ≪ 4)) <$> bx in
  let wbz := (λ v, v + (sourceCpos.2 ≪ 4)) <$> bz in
  let vals := (λ p, sourceBiomes p.1 p.2) <$> nzb in
  let w := world s in
  Some (with_world s
          (emit (set_dim w (destDim a) (setBlocks_Biomes (dims w (destDim a)) wbx wbz vals))
                (EvSetBiomes (destDim a) wbx wbz vals))).

(** Entity and tile-entity copy of one source chunk (source lines 203-216). *)
Definition selected (a : CopyArgs) (l : list EntityRef) : list EntityRef :=
  filter (λ e, contains (sourceSelection a) (Position e) = true) l.

Definition copy_entities (a : CopyArgs) (sourceChunk : Chunk) (s : Frame) : Frame :=
  let sel := selected a (Entities sourceChunk) in
  let w := foldl (λ w e, emit w (EvAddEntity (destDim a) (copyWithOffset e (copyOffset a))))
                 (world s) sel in
  with_world (with_entityCounts s (entitiesCopied s + Z.of_nat (length sel))
                                  (entitiesSeen s + Z.of_nat (length (Entities sourceChunk)))) w.

Definition copy_tileEntities (a : CopyArgs) (sourceChunk : Chunk) (s : Frame) : Frame :=
  let sel := selected a (TileEntities sourceChunk) in
  let w := foldl (λ w e, emit w (EvAddTileEntity (destDim a) (copyWithOffset e (copyOffset a))))
                 (world s) sel in
  with_world (with_tileEntityCounts s (tileEntitiesCopied s + Z.of_nat (length sel))
                                      (tileEntitiesSeen s + Z.of_nat (length (TileEntities sourceChunk)))) w.

(** The body of the chunk loop after the [yield] (source lines 88-216). *)
Definition process_chunk (a : CopyArgs) (makeSourceMask : Arr3 Z → option MaskArr)
    (convertBlocks : Z → Z → Z * Z) (sourceCpos : Z * Z) (s : Frame) : option Frame :=
  sourceChunk ← chunks (dims (world s) (sourceDim a)) !! sourceCpos;
  let hasBiomes := biomes a && bool_decide (is_Some (Biomes sourceChunk)) in
  let s0 := if hasBiomes then with_sourceBiomeMask s (Some (λ _ _, false)) else s in
  s1 ← foldM (copy_section a makeSourceMask convertBlocks sourceCpos hasBiomes)
             (chunk_sectionPositions sourceChunk) s0;
  s2 ← (if hasBiomes then copy_biomes a sourceCpos s1 else Some s1);
  sourceChunk' ← chunks (dims (world s2) (sourceDim a)) !! sourceCpos;
  let s3 := if entities a then copy_entities a sourceChunk' s2 else s2 in
  Some (copy_tileEntities a sourceChunk' s3).

(** ** The generator *)

(** Where the generator is suspended: before its first step or at the [yield]
    for chunk [pending] (fetched, counted, not yet processed), with the chunk
    positions still to visit; or finished. *)
Inductive Gen :=
| GRun (pending : option (Z * Z)) (rest : list (Z * Z))
| GDone.

Inductive Out :=
| Yield (done total : Z)
| StopIteration.

(** The head of the chunk loop: positions absent from the source are skipped. *)
Fixpoint scan (dm : Dimension) (rest : list (Z * Z)) : option ((Z * Z) * list (Z * Z)) :=
  match rest with
  | [] => None
  | c :: r => if containsChunk dm c then Some (c, r) else scan dm r
  end.

(** After the chunk loop (source lines 218-241).  The log line divides by the
    number of chunks visited, which raises ZeroDivisionError when no source
    chunk was present; wall-clock durations are not modelled.  In "all" mode
    the accumulated coordinate arrays are handed to the relighter one by one. *)
Definition finish (a : CopyArgs) (s : Frame) : option Frame :=
  if bool_decide (i s = 0) then None
  else
    match updateLights a with
    | LightsAll =>
        Some (with_world s
                (foldl (λ w c, emit w (EvRelight (destDim a) c.1.1 c.1.2 c.2))
                       (world s) (allChanged s)))
    | _ => Some s
    end.

Definition total_chunks (a : CopyArgs) : Z :=
  chunkCount (mkBoundingBox (destinationPoint a) (sel_size (sourceSelection a))).

Definition converter (lib : BlockTypesModule) (a : CopyArgs) (w : World) : Z → Z → Z * Z :=
  blocktypeConverter lib (blocktypes (dims w (destDim a))) (blocktypes (dims w (sourceDim a))).

(** One [next()] of the generator: run from the point of suspension to the
    following [yield], or to the end. *)
Definition next (lib : BlockTypesModule) (a : CopyArgs) (g : Gen) (s : Frame)
    : option (Out * Gen * Frame) :=
  match g with
  | GDone => Some (StopIteration, GDone, s)
  | GRun pending rest =>
      makeSourceMask ← sourceMaskFunc (id_limit lib) (blocksToCopy a);
      let convertBlocks := converter lib a (world s) in
      s1 ← match pending with
           | Some sourceCpos => process_chunk a makeSourceMask convertBlocks sourceCpos s
           | None => Some s
           end;
      match scan (dims (world s1) (sourceDim a)) rest with
      | Some (sourceCpos, rest') =>
          let s2 := with_i s1 (i s1 + 1) in
          Some (Yield (i s2) (total_chunks a), GRun (Some sourceCpos) rest', s2)
      | None => s2 ← finish a s1; Some (StopIteration, GDone, s2)
      end
  end.

Definition frame0 (w : World) : Frame := mkFrame w 0 0 0 0 0 [] None.

(** [copyBlocksIter(destDim, sourceDim, ...)]: the fresh generator. *)
Definition copyBlocksIter (a : CopyArgs) : Gen :=
  GRun None (sel_chunkPositions (sourceSelection a)).

(** The consumer calls [next()] [n] times; the checkpoints it received. *)
Fixpoint advance (lib : BlockTypesModule) (a : CopyArgs) (n : nat) (g : Gen) (s : Frame)
    : option (list (Z * Z) * Gen * Frame) :=
  match n with
  | O => Some ([], g, s)
  | S n' =>
      r ← next lib a g s;
      match r.1.1 with
      | Yield d t => r' ← advance lib a n' r.1.2 r.2; Some ((d, t) :: r'.1.1, r'.1.2, r'.2)
      | StopIteration => Some ([], r.1.2, r.2)
      end
  end.

(** The consumer runs the generator to its end. *)
Fixpoint exhaust (lib : BlockTypesModule) (a : CopyArgs) (fuel : nat) (g : Gen) (s : Frame)
    : option Frame :=
  match fuel with
  | O => None
  | S fuel' =>
      r ← next lib a g s;
      match r.1.1 with
      | Yield _ _ => exhaust lib a fuel' r.1.2 r.2
      | StopIteration => Some r.2
      end
  end.

(** The chunk loop of the source without its suspensions. *)
Fixpoint run_chunks (a : CopyArgs) (makeSourceMask : Arr3 Z → option MaskArr)
    (convertBlocks : Z → Z → Z * Z) (cs : list (Z * Z)) (s : Frame) : option Frame :=
  match cs with
  | [] => Some s
  | sourceCpos :: cs' =>
      if containsChunk (dims (world s) (sourceDim a)) sourceCpos
      then s' ← process_chunk a makeSourceMask convertBlocks sourceCpos (with_i s (i s + 1));
           run_chunks a makeSourceMask convertBlocks cs' s'
      else run_chunks a makeSourceMask convertBlocks cs' s
  end.

(** The whole operation, run to completion on the store [w]. *)
Definition copyBlocks (lib : BlockTypesModule) (a : CopyArgs) (w : World) : option Frame :=
  makeSourceMask ← sourceMaskFunc (id_limit lib) (blocksToCopy a);
  s ← run_chunks a makeSourceMask (converter lib a w) (sel_chunkPositions (sourceSelection a))
                 (frame0 w);
  finish a s.

(** ** Observations used by the statements *)

(** The block type and data stored at a world position, where the dimension
    holds the chunk and the section of that position. *)
Definition chunk_of (p : Vector) : Z * Z := (vx p ≫ 4, vz p ≫ 4).
Definition section_of (p : Vector) : Z := vy p ≫ 4.
Definition local_of (p : Vector) : Z * Z * Z :=
  (vy p - ((vy p ≫ 4) ≪ 4), vz p - ((vz p ≫ 4) ≪ 4), vx p - ((vx p ≫ 4) ≪ 4)).

Definition at3 {A} (arr : Arr3 A) (l : Z * Z * Z) : A := arr l.1.1 l.1.2 l.2.

Definition voxelAt (dm : Dimension) (p : Vector) : option (Z * Z) :=
  ch ← chunks dm !! chunk_of p;
  sec ← sections ch !! section_of p;
  Some (at3 (Blocks sec) (local_of p), at3 (Data sec) (local_of p)).

(** The biome of a world column (XZ), where the dimension stores one. *)
Definition biomeAt (dm : Dimension) (x z : Z) : option Z :=
  ch ← chunks dm !! (x ≫ 4, z ≫ 4);
  b ← Biomes ch;
  Some (b (Z.land x 15) (Z.land z 15)).

(** The world position of the voxel with local index [y][z][x] in a section. *)
Definition world_pos (cx cy cz : Z) (l : Z * Z * Z) : Vector :=
  mkVector ((cx ≪ 4) + l.2) ((cy ≪ 4) + l.1.1) ((cz ≪ 4) + l.1.2).

Definition in_section (l : Z * Z * Z) : Prop :=
  0 ≤ l.1.1 < 16 ∧ 0 ≤ l.1.2 < 16 ∧ 0 ≤ l.2 < 16.

(** A selection whose mask, chunk positions and containment test describe one
    and the same shape. *)
Record Selection_wf (sel : Selection) : Prop := {
  mask_contains : ∀ cx cy cz m l, section_mask sel cx cy cz = Some m → in_section l →
      at3 m l = contains sel (world_pos cx cy cz l);
  nomask_contains : ∀ cx cy cz l, section_mask sel cx cy cz = None → in_section l →
      contains sel (world_pos cx cy cz l) = false;
  contains_chunkPositions : ∀ p, contains sel p = true → chunk_of p ∈ sel_chunkPositions sel }.

(** A box as a selection. *)
Definition inBox (b : BoundingBox) (p : Vector) : bool :=
  bool_decide (minx b ≤ vx p < maxx b ∧ miny b ≤ vy p < maxy b ∧ minz b ≤ vz p < maxz b).

Definition boxSelection (b : BoundingBox) : Selection :=
  mkSelection (origin b) (size b) (chunkPositions b)
    (λ cx cy cz,
       if bool_decide (volume (intersect (SectionBox cx cy cz) b) = 0) then None
       else Some (λ y z x, inBox b (world_pos cx cy cz (y, z, x))))
    (inBox b).

(** ** The geometry of one destination cell *)

(** The box a source section lands on (what the source calls [destBox] inside
    the section loop). *)
Definition translated (a : CopyArgs) (sourceCpos : Z * Z) (sourceCy : Z) : BoundingBox :=
  let sectionBox := SectionBox sourceCpos.1 sourceCy sourceCpos.2 in
  mkBoundingBox (vadd (origin sectionBox) (copyOffset a)) (size sectionBox).

Definition cell_inter (a : CopyArgs) (sourceCpos : Z * Z) (sourceCy : Z)
    (destCpos : Z * Z) (destCy : Z) : BoundingBox :=
  intersect (SectionBox destCpos.1 destCy destCpos.2) (translated a sourceCpos sourceCy).

Definition nonneg_size (b : BoundingBox) : Prop :=
  0 ≤ vx (size b) ∧ 0 ≤ vy (size b) ∧ 0 ≤ vz (size b).

(** The facts about a destination cell with a nonzero intersection that the
    copy relies on: both slice triples lie inside the arrays, and select
    views of one shape, that of the intersection. *)
Record cell_geometry (a : CopyArgs) (sourceCpos : Z * Z) (sourceCy : Z)
    (destCpos : Z * Z) (destCy : Z) : Prop := {
  geo_x : Z.max (16 * destCpos.1) (16 * sourceCpos.1 + vx (copyOffset a))
          < Z.min (16 * destCpos.1 + 16) (16 * sourceCpos.1 + vx (copyOffset a) + 16);
  geo_y : Z.max (16 * destCy) (16 * sourceCy + vy (copyOffset a))
          < Z.min (16 * destCy + 16) (16 * sourceCy + vy (copyOffset a) + 16);
  geo_z : Z.max (16 * destCpos.2) (16 * sourceCpos.2 + vz (copyOffset a))
          < Z.min (16 * destCpos.2 + 16) (16 * sourceCpos.2 + vz (copyOffset a) + 16);
  geo_dv : subarray (destSlices_of (cell_inter a sourceCpos sourceCy destCpos destCy) destCpos destCy) =
    mkView (Z.max (16 * destCy) (16 * sourceCy + vy (copyOffset a)) - 16 * destCy)
           (Z.max (16 * destCpos.2) (16 * sourceCpos.2 + vz (copyOffset a)) - 16 * destCpos.2)
           (Z.max (16 * destCpos.1) (16 * sourceCpos.1 + vx (copyOffset a)) - 16 * destCpos.1)
           (vy (size (cell_inter a sourceCpos sourceCy destCpos destCy)))
           (vz (size (cell_inter a sourceCpos sourceCy destCpos destCy)))
           (vx (size (cell_inter a sourceCpos sourceCy destCpos destCy)));
  geo_sv : subarray (sourceSlices_of
                       (cell_sourceIntersect a (cell_inter a sourceCpos sourceCy destCpos destCy))
                       sourceCpos sourceCy) =
    mkView (Z.max (16 * destCy) (16 * sourceCy + vy (copyOffset a)) - vy (copyOffset a) - 16 * sourceCy)
           (Z.max (16 * destCpos.2) (16 * sourceCpos.2 + vz (copyOffset a)) - vz (copyOffset a) - 16 * sourceCpos.2)
           (Z.max (16 * destCpos.1) (16 * sourceCpos.1 + vx (copyOffset a)) - vx (copyOffset a) - 16 * sourceCpos.1)
           (vy (size (cell_inter a sourceCpos sourceCy destCpos destCy)))
           (vz (size (cell_inter a sourceCpos sourceCy destCpos destCy)))
           (vx (size (cell_inter a sourceCpos sourceCy destCpos destCy)));
  geo_size : size (cell_inter a sourceCpos sourceCy destCpos destCy) =
    mkVector (Z.min (16 * destCpos.1 + 16) (16 * sourceCpos.1 + vx (copyOffset a) + 16)
              - Z.max (16 * destCpos.1) (16 * sourceCpos.1 + vx (copyOffset a)))
             (Z.min (16 * destCy + 16) (16 * sourceCy + vy (copyOffset a) + 16)
              - Z.max (16 * destCy) (16 * sourceCy + vy (copyOffset a)))
             (Z.min (16 * destCpos.2 + 16) (16 * sourceCpos.2 + vz (copyOffset a) + 16)
              - Z.max (16 * destCpos.2) (16 * sourceCpos.2 + vz (copyOffset a)));
  geo_origin : origin (cell_inter a sourceCpos sourceCy destCpos destCy) =
    mkVector (Z.max (16 * destCpos.1) (16 * sourceCpos.1 + vx (copyOffset a)))
             (Z.max (16 * destCy) (16 * sourceCy + vy (copyOffset a)))
             (Z.max (16 * destCpos.2) (16 * sourceCpos.2 + vz (copyOffset a))) }.


(** ** What one write does *)

(** The destination dimension with the section at [cpos], [cy] replaced. *)
Definition with_section (dm : Dimension) (cpos : Z * Z) (ch : Chunk) (cy : Z) (sec : Section)
    : Dimension :=
  set_chunks dm (<[cpos := set_sections ch (<[cy := sec]> (sections ch))]> (chunks dm)).

Definition is_relight (e : Event) : bool :=
  match e with EvRelight _ _ _ _ => true | _ => false end.
Definition is_write (e : Event) : bool :=
  match e with EvWrite _ _ _ => true | _ => false end.
Definition is_addEntity (e : Event) : bool :=
  match e with EvAddEntity _ _ => true | _ => false end.
Definition event_dim (e : Event) : nat :=
  match e with
  | EvWrite d _ _ | EvRelight d _ _ _ | EvSetBiomes d _ _ _
  | EvAddEntity d _ | EvAddTileEntity d _ => d
  end.

(** ** Relations between frames *)

(** The source mask of a section only selects voxels of the selection. *)
Definition mask_sound (a : CopyArgs) (sourceCpos : Z * Z) (sourceCy : Z) (m : Arr3 bool) : Prop :=
  ∀ l, in_section l → at3 m l = true →
       contains (sourceSelection a) (world_pos sourceCpos.1 sourceCy sourceCpos.2 l) = true.

(** How the stores of two frames, the second later in the run than the first,
    compare: only the destination dimension differs; its registry and its
    storage layer are the same; no chunk went away, and none appeared without
    the creation flag; a stored voxel kept its value or took the converted
    value of its source voxel, which the selection contains; a voxel that
    appeared lies in a section the storage layer could make. *)
Record store_step (a : CopyArgs) (convertBlocks : Z → Z → Z * Z) (s s' : Frame) : Prop := {
  ss_others : ∀ k, k ≠ destDim a → dims (world s') k = dims (world s) k;
  ss_blocktypes : blocktypes (dims (world s') (destDim a)) = blocktypes (dims (world s) (destDim a));
  ss_newSection : newSection (dims (world s') (destDim a)) = newSection (dims (world s) (destDim a));
  ss_newChunkBiomes :
    newChunkBiomes (dims (world s') (destDim a)) = newChunkBiomes (dims (world s) (destDim a));
  ss_chunks_kept : ∀ c, is_Some (chunks (dims (world s) (destDim a)) !! c) →
                        is_Some (chunks (dims (world s') (destDim a)) !! c);
  ss_chunks_made : ∀ c, is_Some (chunks (dims (world s') (destDim a)) !! c) →
                        is_Some (chunks (dims (world s) (destDim a)) !! c) ∨ create a = true;
  ss_voxel : ∀ p v, voxelAt (dims (world s) (destDim a)) p = Some v →
      voxelAt (dims (world s') (destDim a)) p = Some v
      ∨ (contains (sourceSelection a) (vsub p (copyOffset a)) = true
         ∧ ∃ u, voxelAt (dims (world s) (sourceDim a)) (vsub p (copyOffset a)) = Some u
                ∧ voxelAt (dims (world s') (destDim a)) p = Some (convertBlocks u.1 u.2));
  ss_voxel_made : ∀ p, voxelAt (dims (world s) (destDim a)) p = None →
      is_Some (voxelAt (dims (world s') (destDim a)) p) →
      is_Some (newSection (dims (world s) (destDim a)) (section_of p)) }.

(** Two states of a dimension that hold the same chunks and the same voxels,
    under the same registry and storage layer. *)
Record same_voxels (d d' : Dimension) : Prop := {
  sv_blocktypes : blocktypes d' = blocktypes d;
  sv_newSection : newSection d' = newSection d;
  sv_newChunkBiomes : newChunkBiomes d' = newChunkBiomes d;
  sv_chunks : ∀ c, is_Some (chunks d' !! c) ↔ is_Some (chunks d !! c);
  sv_sections : ∀ c, sections <$> (chunks d' !! c) = sections <$> (chunks d !! c);
  sv_lists : ∀ c, (λ ch, (Entities ch, TileEntities ch)) <$> (chunks d' !! c)
                  = (λ ch, (Entities ch, TileEntities ch)) <$> (chunks d !! c) }.

(** An event the operation may issue during its chunk loop: it concerns the
    destination; in "all" mode it is no relight call; with the entity flag off
    it is no entity insertion. *)
Definition loop_event (a : CopyArgs) (e : Event) : Prop :=
  event_dim e = destDim a
  ∧ (updateLights a = LightsAll → is_relight e = false)
  ∧ (entities a = false → is_addEntity e = false).

(** What any stretch of the chunk loop does, whatever the arguments: only the
    destination dimension is touched; registries and storage layers stay;
    every chunk stays, with its entity and tile-entity lists; every section
    stays; the log grows by events of the loop, and the accumulator of "all"
    mode by at most one entry per write. *)
Record effects_step (a : CopyArgs) (s s' : Frame) : Prop := {
  es_others : ∀ k, k ≠ destDim a → dims (world s') k = dims (world s) k;
  es_blocktypes : ∀ k, blocktypes (dims (world s') k) = blocktypes (dims (world s) k);
  es_newSection : ∀ k, newSection (dims (world s') k) = newSection (dims (world s) k);
  es_lists : ∀ k c ch, chunks (dims (world s) k) !! c = Some ch →
      ∃ ch', chunks (dims (world s') k) !! c = Some ch'
             ∧ Entities ch' = Entities ch ∧ TileEntities ch' = TileEntities ch;
  es_sections : ∀ k c cy, is_Some (getSection (world s) k c cy) →
                          is_Some (getSection (world s') k c cy);
  es_log : ∃ l m, log (world s') = log (world s) ++ l ∧ Forall (loop_event a) l
                  ∧ allChanged s' = allChanged s ++ m
                  ∧ (length m ≤ length (filter (λ e, is_write e = true) l))%nat }.

(** A later state of a dimension that kept registry, storage layer, chunks,
    entity lists and sections of an earlier one. *)
Record dim_kept (d d' : Dimension) : Prop := {
  dk_blocktypes : blocktypes d' = blocktypes d;
  dk_newSection : newSection d' = newSection d;
  dk_chunks : ∀ c ch, chunks d !! c = Some ch →
      ∃ ch', chunks d' !! c = Some ch'
             ∧ Entities ch' = Entities ch ∧ TileEntities ch' = TileEntities ch
             ∧ ∀ cy, is_Some (sections ch !! cy) → is_Some (sections ch' !! cy) }.

(** What any stretch of the whole operation, its last part included, does to
    the outside: it leaves every dimension but the destination alone, and
    every event it issues concerns the destination. *)
Record touches_dest (a : CopyArgs) (s s' : Frame) : Prop := {
  td_others : ∀ k, k ≠ destDim a → dims (world s') k = dims (world s) k;
  td_log : ∃ l, log (world s') = log (world s) ++ l ∧ Forall (λ e, event_dim e = destDim a) l }.

(** The relight calls of the last part of the operation. *)
Definition deferred_relights (a : CopyArgs) (s : Frame) : list Event :=
  (λ c, EvRelight (destDim a) c.1.1 c.1.2 c.2) <$> allChanged s.

(** The checkpoints [(1, total)], ..., [(n, total)]. *)
Definition checkpoints (a : CopyArgs) (first : Z) (n : nat) : list (Z * Z) :=
  (λ k, (k, total_chunks a)) <$> seqZ first (Z.of_nat n).

(** ** A small world for the examples *)

Definition demo_blocktypes : BlockTypes :=
  mkBlockTypes (λ t, if bool_decide (t = 5) then 15 else 0)
               (λ t, if bool_decide (t = 0) then 0 else 15).

(** Both dimensions share the registry; the converter is the identity. *)
Definition demo_lib : BlockTypesModule := mkBlockTypesModule 256 (λ _ _ t d, (t, d)).

Definition demo_section : Section := mkSection (λ y z x, 1 + x + 16 * z) (λ y z x, y).
Definition air_section : Section := mkSection (λ _ _ _, 0) (λ _ _ _, 0).
Definition demo_newSection (cy : Z) : option Section :=
  if bool_decide (0 ≤ cy < 16) then Some air_section else None.

Definition demo_sourceChunk : Chunk :=
  mkChunk {[ 0 := demo_section ]}
          [mkEntityRef (mkVector 1 2 3) 7]
          [mkEntityRef (mkVector 1 2 3) 8; mkEntityRef (mkVector 1 0 0) 9]
          (Some (λ x z, 7 + x)) false.
Definition demo_emptyChunk : Chunk := mkChunk ∅ [] [] (Some (λ _ _, 1)) false.
Definition demo_airChunk : Chunk := mkChunk {[ 0 := air_section ]} [] [] None false.

Definition demo_source : Dimension :=
  mkDimension {[ (0, 0) := demo_sourceChunk ]} demo_blocktypes None demo_newSection.
Definition demo_dest : Dimension :=
  mkDimension {[ (0, 0) := demo_emptyChunk; (1, 0) := demo_emptyChunk ]}
              demo_blocktypes None demo_newSection.

(** Dimension 0 is the source, dimension 1 the destination. *)
Definition demo_world : World :=
  mkWorld (λ d, if bool_decide (d = 0%nat) then demo_source else demo_dest) [].

(** Two voxels, (1,2,3) and (2,2,3), copied to (15,2,3) and (16,2,3): the
    copy straddles the boundary between the chunks (0,0) and (1,0). *)
Definition demo_args (ents : bool) (mode : LightMode) : CopyArgs :=
  mkCopyArgs 1 0 (boxSelection (mkBoundingBox (mkVector 1 2 3) (mkVector 2 1 1)))
             (mkVector 15 2 3) None ents false true mode.

(** One voxel, (1,2,3), copied in place into the other dimension. *)
Definition relight_args : CopyArgs :=
  mkCopyArgs 1 0 (boxSelection (mkBoundingBox (mkVector 1 2 3) (mkVector 1 1 1)))
             (mkVector 1 2 3) None false false false LightsPerWrite.

(** One voxel, (2,0,2), copied one chunk further in x, with its biome. *)
Definition biome_args : CopyArgs :=
  mkCopyArgs 1 0 (boxSelection (mkBoundingBox (mkVector 2 0 2) (mkVector 1 1 1)))
             (mkVector 18 0 2) None false false true LightsOff.

(** A copy inside one dimension: the voxels (14,0,0) and (15,0,0) go one
    step in x, to (15,0,0) and (16,0,0). *)
Definition overlap_dim : Dimension :=
  mkDimension {[ (0, 0) := demo_sourceChunk; (1, 0) := demo_airChunk ]}
              demo_blocktypes None demo_newSection.
Definition overlap_world : World := mkWorld (λ _, overlap_dim) [].
Definition overlap_args : CopyArgs :=
  mkCopyArgs 0 0 (boxSelection (mkBoundingBox (mkVector 14 0 0) (mkVector 2 1 1)))
             (mkVector 15 0 0) None false false false LightsOff.

(** Where the generator stands: the chunk positions before the pending one
    went through the chunk loop, the pending chunk is counted and
    untouched. *)
Definition at_chunk_boundary (lib : BlockTypesModule) (a : CopyArgs) (w : World)
    (mk : Arr3 Z → option MaskArr) (g : Gen) (s : Frame) : Prop :=
  match g with
  | GDone => True
  | GRun pending rest =>
      ∃ pre s1,
        sel_chunkPositions (sourceSelection a)
          = pre ++ match pending with Some c => c :: rest | None => rest end
        ∧ run_chunks a mk (converter lib a w) pre (frame0 w) = Some s1
        ∧ match pending with
          | Some c => s = with_i s1 (i s1 + 1)
                      ∧ containsChunk (dims (world s1) (sourceDim a)) c = true
          | None => s = s1
          end
  end.

(** * Arithmetic of chunk and section coordinates *)

Lemma shiftl4 c : c ≪ 4 = 16 * c.
Proof. rewrite Z.shiftl_mul_pow2 by lia. change (2 ^ 4) with 16. lia. Qed.

Lemma shiftr4 x : x ≫ 4 = x `div` 16.
Proof. rewrite Z.shiftr_div_pow2 by lia. reflexivity. Qed.

Ltac shifts := rewrite ?shiftl4, ?shiftr4 in *.
Ltac zdiv := Z.div_mod_to_equations; lia.

Lemma section_coord_unique x c l : x = 16 * c + l → 0 ≤ l < 16 → x `div` 16 = c.
Proof. intros -> Hl. zdiv. Qed.

Lemma elem_of_range lo hi k : k ∈ range lo hi ↔ lo ≤ k < hi.
Proof. unfold range. rewrite elem_of_seqZ. lia. Qed.

Lemma elem_of_ndindex m0 m1 m2 i j k :
  (i, j, k) ∈ ndindex (m0, m1, m2) ↔ 0 ≤ i < m0 ∧ 0 ≤ j < m1 ∧ 0 ≤ k < m2.
Proof.
  unfold ndindex. rewrite list_elem_of_bind. split.
  - intros (i' & Hin & Hi). apply list_elem_of_bind in Hin as (j' & Hin & Hj).
    apply list_elem_of_bind in Hin as (k' & Hin & Hk).
    apply list_elem_of_ret in Hin. simplify_eq.
    apply elem_of_range in Hi, Hj, Hk. lia.
  - intros (Hi & Hj & Hk). exists i. split; [|by apply elem_of_range].
    apply list_elem_of_bind. exists j. split; [|by apply elem_of_range].
    apply list_elem_of_bind. exists k. split; [|by apply elem_of_range].
    by apply list_elem_of_ret.
Qed.

Lemma elem_of_chunkPositions b cx cz :
  (cx, cz) ∈ chunkPositions b ↔ mincx b ≤ cx < maxcx b ∧ mincz b ≤ cz < maxcz b.
Proof.
  unfold chunkPositions. rewrite list_elem_of_bind. split.
  - intros (x & Hin & Hx). apply list_elem_of_bind in Hin as (z & Hin & Hz).
    apply list_elem_of_ret in Hin. simplify_eq.
    apply elem_of_range in Hx, Hz. lia.
  - intros (Hx & Hz). exists cx. split; [|by apply elem_of_range].
    apply list_elem_of_bind. exists cz. split; [|by apply elem_of_range].
    by apply list_elem_of_ret.
Qed.

Lemma elem_of_nonzero3 m v p :
  p ∈ nonzero3 m v ↔ p ∈ ndindex (shape v) ∧ vget m v p = true.
Proof. unfold nonzero3. rewrite list_elem_of_filter. tauto. Qed.

(** * Slices *)

Lemma slice_bound_id i len : 0 ≤ i ≤ len → slice_bound i len = i.
Proof. intros. unfold slice_bound. case_bool_decide; lia. Qed.

Lemma slice_in_range s len :
  0 ≤ start s → start s ≤ stop s → stop s ≤ len →
  slice_lo s len = start s ∧ slice_len s len = stop s - start s.
Proof.
  intros. unfold slice_lo, slice_len. rewrite !slice_bound_id by lia. lia.
Qed.

(** * The box of one destination cell *)

(** One axis of the intersection of a destination cell with a translated
    source cell. *)
Lemma axis_overlap (sc dc off : Z) :
  let lo := Z.max (16 * dc) (16 * sc + off) in
  let hi := Z.min (16 * dc + 16) (16 * sc + off + 16) in
  lo < hi →
  0 ≤ lo - 16 * dc ∧ hi - 16 * dc ≤ 16 ∧
  0 ≤ lo - off - 16 * sc ∧ lo - off + (hi - lo) - 16 * sc ≤ 16.
Proof. intros lo hi H. subst lo hi. lia. Qed.

Lemma intersect_nonzero a b :
  nonneg_size a → nonneg_size b →
  volume (intersect a b) ≠ 0 →
  intersect a b =
    mkBoundingBox
      (mkVector (Z.max (minx a) (minx b)) (Z.max (miny a) (miny b)) (Z.max (minz a) (minz b)))
      (mkVector (Z.min (maxx a) (maxx b) - Z.max (minx a) (minx b))
                (Z.min (maxy a) (maxy b) - Z.max (miny a) (miny b))
                (Z.min (maxz a) (maxz b) - Z.max (minz a) (minz b)))
  ∧ Z.max (minx a) (minx b) < Z.min (maxx a) (maxx b)
  ∧ Z.max (miny a) (miny b) < Z.min (maxy a) (maxy b)
  ∧ Z.max (minz a) (minz b) < Z.min (maxz a) (maxz b).
Proof.
  intros Ha Hb. unfold intersect. case_bool_decide as Hd.
  - intros H. exfalso. apply H. reflexivity.
  - cbn -[Z.max Z.min]. unfold volume, vsub. cbn -[Z.max Z.min]. intros Hv.
    split; [reflexivity|].
    assert (Z.min (maxx a) (maxx b) - Z.max (minx a) (minx b) ≠ 0) by (intros E; apply Hv; rewrite E; lia).
    assert (Z.min (maxy a) (maxy b) - Z.max (miny a) (miny b) ≠ 0) by (intros E; apply Hv; rewrite E; lia).
    assert (Z.min (maxz a) (maxz b) - Z.max (minz a) (minz b) ≠ 0) by (intros E; apply Hv; rewrite E; lia).
    unfold nonneg_size, minx, miny, minz, maxx, maxy, maxz in *. lia.
Qed.

Lemma cell_geometry_of a sourceCpos sourceCy destCpos destCy :
  volume (cell_inter a sourceCpos sourceCy destCpos destCy) ≠ 0 →
  cell_geometry a sourceCpos sourceCy destCpos destCy.
Proof.
  intros Hv. unfold cell_inter in Hv.
  apply intersect_nonzero in Hv as (Hi & Hx & Hy & Hz);
    [|unfold nonneg_size; simpl; lia..].
  change (intersect _ _) with (cell_inter a sourceCpos sourceCy destCpos destCy) in Hi.
  unfold translated, SectionBox, minx, miny, minz, maxx, maxy, maxz, vadd in *.
  cbn -[Z.max Z.min Z.shiftl Z.mul copyOffset] in *. shifts.
  pose proof (axis_overlap sourceCpos.1 destCpos.1 (vx (copyOffset a)) Hx) as Ax.
  pose proof (axis_overlap sourceCy destCy (vy (copyOffset a)) Hy) as Ay.
  pose proof (axis_overlap sourceCpos.2 destCpos.2 (vz (copyOffset a)) Hz) as Az.
  cbv zeta in Ax, Ay, Az.
  split; try done; rewrite ?Hi.
  - unfold subarray, destSlices_of, minx, miny, minz, maxx, maxy, maxz.
    cbn -[Z.max Z.min Z.shiftl Z.mul copyOffset]. shifts.
    f_equal; first [ apply slice_in_range | eapply eq_trans; [apply slice_in_range|] ];
      cbn -[Z.max Z.min Z.mul copyOffset]; lia.
  - unfold subarray, sourceSlices_of, cell_sourceIntersect, vsub, minx, miny, minz, maxx, maxy, maxz.
    cbn -[Z.max Z.min Z.shiftl Z.mul copyOffset]. shifts.
    f_equal; first [ apply slice_in_range | eapply eq_trans; [apply slice_in_range|] ];
      cbn -[Z.max Z.min Z.mul copyOffset]; lia.
  - cbn -[Z.max Z.min Z.mul copyOffset]. f_equal; lia.
  - reflexivity.
Qed.

(** * The type mask *)

Lemma np_index_Some n i k : np_index n i = Some k ↔ (0 ≤ i < n ∧ k = i) ∨ (- n ≤ i < 0 ∧ k = i + n).
Proof.
  unfold np_index. repeat case_bool_decide; split; intros H'; simplify_eq; try lia.
  all: destruct H' as [[? ->]|[? ->]]; first [reflexivity | lia].
Qed.

Lemma np_index_None n i : np_index n i = None ↔ ¬ (- n ≤ i < n).
Proof. unfold np_index. repeat case_bool_decide; split; intros H'; simplify_eq; first [reflexivity | lia]. Qed.

Lemma np_index_range n i k : np_index n i = Some k → 0 ≤ k < n.
Proof. rewrite np_index_Some. lia. Qed.

(** What the table holds after the ids of [l] were set in [tm]. *)
Lemma foldM_typemask_set l : ∀ tm : list bool,
  Forall (λ id, - Z.of_nat (length tm) ≤ id < Z.of_nat (length tm)) l →
  ∃ tm', foldM typemask_set l tm = Some tm' ∧ length tm' = length tm ∧
    ∀ t, 0 ≤ t < Z.of_nat (length tm) →
      ∃ b, tm' !! Z.to_nat t = Some b ∧
        (b = true ↔ (∃ id, id ∈ l ∧ np_index (Z.of_nat (length tm)) id = Some t)
                    ∨ tm !! Z.to_nat t = Some true).
Proof.
  induction l as [|id l IH]; intros tm Hall.
  - exists tm. split; [done|]. split; [done|]. intros t Ht.
    destruct (lookup_lt_is_Some_2 tm (Z.to_nat t)) as [b Hb]; [lia|].
    exists b. split; [done|]. split.
    + intros ->. by right.
    + intros [(id & Hin & _)|H']; [by apply elem_of_nil in Hin|congruence].
  - apply Forall_cons in Hall as [Hid Hall].
    change (foldM typemask_set (id :: l) tm) with (typemask_set id tm ≫= foldM typemask_set l).
    destruct (np_index (Z.of_nat (length tm)) id) as [k|] eqn:Hk;
      [|apply np_index_None in Hk; lia].
    assert (Hts : typemask_set id tm = Some (<[Z.to_nat k:=true]> tm))
      by (unfold typemask_set; by rewrite Hk).
    rewrite Hts. cbn [mbind option_bind].
    pose proof (np_index_range _ _ _ Hk) as Hkr.
    destruct (IH (<[Z.to_nat k:=true]> tm)) as (tm' & Hf & Hlen & Hget).
    { by rewrite length_insert. }
    rewrite length_insert in Hlen, Hget.
    exists tm'. split; [done|]. split; [done|]. intros t Ht.
    destruct (Hget t Ht) as (b & Hb & Hiff). exists b. split; [done|].
    rewrite Hiff. clear Hiff Hb Hget.
    destruct (decide (t = k)) as [->|Hne].
    + rewrite list_lookup_insert_eq by lia. split; [|tauto].
      intros _. left. exists id. split; [left|done].
    + rewrite list_lookup_insert_ne by lia. split.
      * intros [(id' & Hin & Hid')|H']; [|by right].
        left. exists id'. split; [by right|done].
      * intros [(id' & Hin & Hid')|H']; [|by right].
        apply elem_of_cons in Hin as [->|Hin]; [congruence|].
        left. by exists id'.
Qed.

Lemma foldM_typemask_set_fail l : ∀ tm : list bool,
  ¬ Forall (λ id, - Z.of_nat (length tm) ≤ id < Z.of_nat (length tm)) l →
  foldM typemask_set l tm = None.
Proof.
  induction l as [|id l IH]; intros tm Hall.
  - exfalso. apply Hall. constructor.
  - change (foldM typemask_set (id :: l) tm) with (typemask_set id tm ≫= foldM typemask_set l).
    destruct (np_index (Z.of_nat (length tm)) id) as [k|] eqn:Hk;
      [|unfold typemask_set; by rewrite Hk].
    assert (Hts : typemask_set id tm = Some (<[Z.to_nat k:=true]> tm))
      by (unfold typemask_set; by rewrite Hk).
    rewrite Hts. cbn [mbind option_bind]. apply IH. rewrite length_insert. intros Hl. apply Hall. constructor; [|done].
    apply np_index_Some in Hk. lia.
Qed.

Lemma maskedSourceMask_ok (tm : list bool) (sourceBlocks : Arr3 Z) :
  (∀ i j k, (i, j, k) ∈ ndindex (16, 16, 16) → 0 ≤ sourceBlocks i j k < Z.of_nat (length tm)) →
  ∃ m, maskedSourceMask tm sourceBlocks = Some (Mask3 m) ∧
    ∀ i j k, (i, j, k) ∈ ndindex (16, 16, 16) →
      Some (m i j k) = tm !! Z.to_nat (sourceBlocks i j k).
Proof.
  intros Hr. unfold maskedSourceMask.
  assert (Hat : ∀ i j k, (i, j, k) ∈ ndindex (16, 16, 16) →
            typemask_at tm (sourceBlocks i j k) = tm !! Z.to_nat (sourceBlocks i j k)
            ∧ is_Some (tm !! Z.to_nat (sourceBlocks i j k))).
  { intros i j k Hin. specialize (Hr i j k Hin). unfold typemask_at.
    destruct (np_index _ _) as [x|] eqn:Hx; [|apply np_index_None in Hx; lia].
    apply np_index_Some in Hx. simpl. assert (x = sourceBlocks i j k) as -> by lia.
    split; [done|]. apply lookup_lt_is_Some_2. lia. }
  rewrite (proj2 (forallb_forall _ _)).
  - eexists. split; [done|]. intros i j k Hin. destruct (Hat i j k Hin) as [-> [b ->]]. done.
  - intros [[i j] k] Hin%list_elem_of_In. simpl.
    destruct (Hat i j k Hin) as [-> Hs]. by apply bool_decide_eq_true.
Qed.

(** C6 (amended): ids of the allow-list that are valid indices of the type
    table (from [-id_limit] up to, not including, [id_limit]; a negative one
    counts from the end of the table) build the mask without error, and a
    voxel matches exactly when its type is, as an index, one of them; an
    allow-list with any other id makes the construction raise. *)
Theorem sourceMaskFunc_allow_list (L : Z) (l : list Z) :
  0 ≤ L →
  (Forall (λ id, - L ≤ id < L) l →
   ∃ makeSourceMask, sourceMaskFunc L (Some l) = Some makeSourceMask ∧
     ∀ sourceBlocks : Arr3 Z,
       (∀ i j k, (i, j, k) ∈ ndindex (16, 16, 16) → 0 ≤ sourceBlocks i j k < L) →
       ∃ m, makeSourceMask sourceBlocks = Some (Mask3 m) ∧
         ∀ i j k, (i, j, k) ∈ ndindex (16, 16, 16) →
           (m i j k = true ↔ ∃ id, id ∈ l ∧ np_index L id = Some (sourceBlocks i j k)))
  ∧ (¬ Forall (λ id, - L ≤ id < L) l → sourceMaskFunc L (Some l) = None).
Proof.
  intros HL.
  assert (Hlen : Z.of_nat (length (replicate (Z.to_nat L) false)) = L)
    by (rewrite length_replicate; lia).
  split.
  - intros Hall. unfold sourceMaskFunc, make_typemask.
    destruct (foldM_typemask_set l (replicate (Z.to_nat L) false)) as (tm & Hf & Hl & Hget).
    { by rewrite Hlen. }
    rewrite Hlen in Hget. rewrite Hf. simpl. eexists. split; [done|].
    intros sourceBlocks Hr.
    assert (Hok : ∀ i j k, (i, j, k) ∈ ndindex (16, 16, 16) →
              0 ≤ sourceBlocks i j k < Z.of_nat (length tm)).
    { intros i j k Hin. rewrite Hl, Hlen. by apply Hr. }
    apply maskedSourceMask_ok in Hok as (m & Hm & Hmget).
    exists m. split; [done|]. intros i j k Hin.
    specialize (Hmget i j k Hin). destruct (Hget _ (Hr i j k Hin)) as (b & Hb & Hiff).
    rewrite Hb in Hmget. injection Hmget as ->. rewrite Hiff.
    rewrite lookup_replicate_2 by (specialize (Hr i j k Hin); lia).
    split; [intros [H'|H']; [done|congruence]|by left].
  - intros Hall. unfold sourceMaskFunc, make_typemask.
    rewrite foldM_typemask_set_fail; [done|]. by rewrite Hlen.
Qed.

(** C6 (as stated) fails: an allow-list with an id at or above the id upper
    bound does raise. *)
Lemma sourceMaskFunc_out_of_range_raises :
  300 ∈ [1; 300] ∧ 256 ≤ 300 ∧ sourceMaskFunc 256 (Some [1; 300]) = None.
Proof. split; [set_solver|]. split; [lia|]. vm_compute. reflexivity. Qed.

Lemma sourceMaskFunc_allow_list_witness :
  (∃ makeSourceMask, sourceMaskFunc 256 (Some [1; -2]) = Some makeSourceMask ∧
     ∀ sourceBlocks : Arr3 Z,
       (∀ i j k, (i, j, k) ∈ ndindex (16, 16, 16) → 0 ≤ sourceBlocks i j k < 256) →
       ∃ m, makeSourceMask sourceBlocks = Some (Mask3 m) ∧
         ∀ i j k, (i, j, k) ∈ ndindex (16, 16, 16) →
           (m i j k = true ↔ ∃ id, id ∈ [1; -2] ∧ np_index 256 id = Some (sourceBlocks i j k)))
  ∧ sourceMaskFunc 256 (Some [1; 300]) = None.
Proof.
  split.
  - apply (sourceMaskFunc_allow_list 256 [1; -2]); [lia|].
    repeat constructor; lia.
  - apply (sourceMaskFunc_allow_list 256 [1; 300]); [lia|].
    intros H. apply Forall_cons in H as [_ H]. apply Forall_cons in H as [H _]. lia.
Defined.

(** * C8: the two index ranges of a destination cell *)

(** C8: for every translation vector and every source section, a destination
    cell whose intersection with the translated section has nonzero volume
    gets a source-side and a destination-side index range of the same extent
    on every axis, the extent of the intersection itself: Python's slicing
    truncates neither of them. *)
Theorem slices_same_extent (a : CopyArgs) (sourceCpos : Z * Z) (sourceCy : Z)
    (destCpos : Z * Z) (destCy : Z) :
  volume (cell_inter a sourceCpos sourceCy destCpos destCy) ≠ 0 →
  shape (subarray (sourceSlices_of
                     (cell_sourceIntersect a (cell_inter a sourceCpos sourceCy destCpos destCy))
                     sourceCpos sourceCy))
  = shape (subarray (destSlices_of (cell_inter a sourceCpos sourceCy destCpos destCy) destCpos destCy))
  ∧ shape (subarray (destSlices_of (cell_inter a sourceCpos sourceCy destCpos destCy) destCpos destCy))
    = (vy (size (cell_inter a sourceCpos sourceCy destCpos destCy)),
       vz (size (cell_inter a sourceCpos sourceCy destCpos destCy)),
       vx (size (cell_inter a sourceCpos sourceCy destCpos destCy))).
Proof.
  intros Hv. destruct (cell_geometry_of _ _ _ _ _ Hv) as [_ _ _ Hdv Hsv _ _].
  rewrite Hdv, Hsv. split; reflexivity.
Qed.

(** * The store *)

Lemma dims_set_dim w d dm k :
  dims (set_dim w d dm) k = if bool_decide (k = d) then dm else dims w k.
Proof. reflexivity. Qed.

Lemma dims_put_chunk w d cpos ch k :
  dims (put_chunk w d cpos ch) k =
  if bool_decide (k = d) then set_chunks (dims w d) (<[cpos := ch]> (chunks (dims w d)))
  else dims w k.
Proof. reflexivity. Qed.

Lemma getSection_create_Some w d cpos cy sec w1 :
  getSection_create w d cpos cy = Some (sec, w1) →
  ∃ ch, chunks (dims w d) !! cpos = Some ch ∧
    log w1 = log w ∧
    (sections ch !! cy = Some sec ∧ w1 = w
     ∨ sections ch !! cy = None ∧ newSection (dims w d) cy = Some sec ∧
       w1 = put_chunk w d cpos (set_sections ch (<[cy := sec]> (sections ch)))).
Proof.
  unfold getSection_create. intros H.
  destruct (chunks (dims w d) !! cpos) as [ch|] eqn:Hch; [|done]. simpl in H.
  exists ch. split; [done|].
  destruct (sections ch !! cy) as [sec0|] eqn:Hs.
  - simplify_eq. split; [done|]. by left.
  - destruct (newSection (dims w d) cy) as [sec0|] eqn:Hn; [|done]. simpl in H.
    simplify_eq. split; [done|]. by right.
Qed.

Lemma getSection_create_None w d cpos cy ch :
  chunks (dims w d) !! cpos = Some ch →
  getSection_create w d cpos cy = None →
  sections ch !! cy = None ∧ newSection (dims w d) cy = None.
Proof.
  unfold getSection_create. intros -> H. simpl in H.
  destruct (sections ch !! cy); [done|].
  destruct (newSection (dims w d) cy); [done|]. done.
Qed.

(** * The lighting part of a write *)

Lemma update_lights_dims a inter nz cl s :
  dims (world (update_lights a inter nz cl s)) = dims (world s).
Proof.
  unfold update_lights. destruct (updateLights a); [done| |]; case_bool_decide; done.
Qed.

Lemma update_lights_frame a inter nz cl s :
  let s' := update_lights a inter nz cl s in
  i s' = i s ∧ entitiesCopied s' = entitiesCopied s ∧ tileEntitiesCopied s' = tileEntitiesCopied s
  ∧ entitiesSeen s' = entitiesSeen s ∧ tileEntitiesSeen s' = tileEntitiesSeen s
  ∧ sourceBiomeMask s' = sourceBiomeMask s.
Proof.
  unfold update_lights. destruct (updateLights a); [done| |]; case_bool_decide; done.
Qed.

(** The log and the accumulator after the lighting part, by mode. *)
Lemma update_lights_log a inter nz cl s :
  let s' := update_lights a inter nz cl s in
  match updateLights a with
  | LightsOff => log (world s') = log (world s) ∧ allChanged s' = allChanged s
  | LightsPerWrite =>
      allChanged s' = allChanged s ∧
      (log (world s') = log (world s)
       ∨ ∃ x y z, log (world s') = log (world s) ++ [EvRelight (destDim a) x y z])
  | LightsAll =>
      log (world s') = log (world s) ∧
      (allChanged s' = allChanged s ∨ ∃ c, allChanged s' = allChanged s ++ [c])
  end.
Proof.
  unfold update_lights. destruct (updateLights a); [done| |]; case_bool_decide; simpl.
  - split; [done|]. by left.
  - split; [done|]. right. by eexists _, _, _.
  - split; [done|]. by left.
  - split; [done|]. right. by eexists.
Qed.

(** * One destination cell *)

(** The write of a cell returns when the two views have one shape, and then
    it is the masked write followed by the lighting part. *)
Lemma write_cell_Some a convertBlocks inter sv dv nz sourceSection destSection destCpos destCy w1 s s' :
  write_cell a convertBlocks inter sv dv nz sourceSection destSection destCpos destCy w1 s
    = Some s' →
  shape dv = shape sv ∧
  ∃ cl, s' = update_lights a inter nz cl
          (with_world s
             (emit (put_section w1 (destDim a) destCpos destCy
                      (written_section convertBlocks sourceSection destSection sv dv nz))
                   (EvWrite (destDim a) destCpos destCy))).
Proof.
  unfold write_cell. intros H. case_bool_decide as Hshape; [|done].
  split; [done|]. eexists. apply (inj Some) in H. symmetry. exact H.
Qed.

(** What a cell step that returns has done: nothing (zero-volume intersection,
    or no section to be had), or one masked write into the section at
    [destCpos], [destCy], followed by the lighting part. *)
Lemma copy_cell_Some a convertBlocks sourceCpos sourceCy sourceMask destBox destCpos destCy s s' :
  copy_cell a convertBlocks sourceCpos sourceCy sourceMask destBox destCpos destCy s = Some s' →
  s' = s ∨
  ∃ destChunk destSection sourceSection w1 cl,
    let inter := intersect (SectionBox destCpos.1 destCy destCpos.2) destBox in
    let sv := subarray (sourceSlices_of (cell_sourceIntersect a inter) sourceCpos sourceCy) in
    let dv := subarray (destSlices_of inter destCpos destCy) in
    let nz := nonzero3 sourceMask sv in
    let d := dims (world s) (destDim a) in
    let sec' := written_section convertBlocks sourceSection destSection sv dv nz in
    volume inter ≠ 0 ∧
    chunks d !! destCpos = Some destChunk ∧
    (sections destChunk !! destCy = Some destSection ∧ w1 = world s
     ∨ sections destChunk !! destCy = None ∧ newSection d destCy = Some destSection ∧
       w1 = put_chunk (world s) (destDim a) destCpos
              (set_sections destChunk (<[destCy := destSection]> (sections destChunk)))) ∧
    getSection w1 (sourceDim a) sourceCpos sourceCy = Some sourceSection ∧
    shape dv = shape sv ∧
    s' = update_lights a inter nz cl
           (with_world s (emit (put_section w1 (destDim a) destCpos destCy sec')
                               (EvWrite (destDim a) destCpos destCy))).
Proof.
  unfold copy_cell. intros H.
  case_bool_decide as Hv; [left; congruence|].
  apply bind_Some in H as (destChunk & Hch & H).
  destruct (getSection_create (world s) (destDim a) destCpos destCy) as [[destSection w1]|] eqn:Hg;
    [|left; congruence].
  apply getSection_create_Some in Hg as (ch & Hch' & Hlog & Hcase).
  assert (ch = destChunk) as -> by congruence.
  apply bind_Some in H as (sourceSection & Hsrc & H).
  apply write_cell_Some in H as (Hshape & cl & ->).
  right. exists destChunk, destSection, sourceSection, w1, cl.
  split; [done|]. split; [done|]. split; [exact Hcase|].
  split; [done|]. split; [done|]. reflexivity.
Qed.

(** The destination dimension after the write of a cell, whether the section
    was there or was made. *)
Lemma put_section_after_create w d cpos cy (ch : Chunk) sec sec' w1 :
  chunks (dims w d) !! cpos = Some ch →
  (sections ch !! cy = Some sec ∧ w1 = w
   ∨ sections ch !! cy = None ∧ newSection (dims w d) cy = Some sec ∧
     w1 = put_chunk w d cpos (set_sections ch (<[cy := sec]> (sections ch)))) →
  ∀ k, dims (put_section w1 d cpos cy sec') k =
       if bool_decide (k = d) then with_section (dims w d) cpos ch cy sec' else dims w k.
Proof.
  intros Hch Hcase k. unfold put_section.
  destruct Hcase as [[Hs ->]|(Hs & Hn & ->)].
  - rewrite Hch. rewrite dims_put_chunk. done.
  - rewrite dims_put_chunk. rewrite bool_decide_eq_true_2 by done. simpl.
    rewrite lookup_insert_eq. rewrite dims_put_chunk.
    case_bool_decide; [|by rewrite dims_put_chunk, bool_decide_eq_false_2].
    rewrite dims_put_chunk, bool_decide_eq_true_2 by done.
    unfold with_section, set_chunks, set_sections. simpl.
    rewrite !insert_insert_eq. done.
Qed.

(** * Masked assignment, voxel by voxel *)

Lemma base_index_inv v p q : base_index v p = q ↔ p = (q.1.1 - lo0 v, q.1.2 - lo1 v, q.2 - lo2 v).
Proof.
  destruct p as [[i j] k], q as [[i' j'] k']. unfold base_index. simpl.
  split; intros H; simplify_eq; f_equal; try f_equal; lia.
Qed.

Lemma masked_assign_at {A} (arr : Arr3 A) v nz (f : Z * Z * Z → A) i j k :
  masked_assign arr v nz (f <$> nz) i j k =
  if bool_decide ((i - lo0 v, j - lo1 v, k - lo2 v) ∈ nz)
  then f (i - lo0 v, j - lo1 v, k - lo2 v) else arr i j k.
Proof.
  unfold masked_assign. revert arr.
  induction nz as [|x nz IH]; intros arr.
  - rewrite bool_decide_eq_false_2 by apply not_elem_of_nil. done.
  - cbn [fmap list_fmap zip zip_with foldl]. rewrite IH. cbn [fst snd]. clear IH.
    destruct (decide ((i - lo0 v, j - lo1 v, k - lo2 v) ∈ nz)) as [Hin|Hin].
    + rewrite !bool_decide_eq_true_2; [done| by right | done].
    + rewrite (bool_decide_eq_false_2 _ Hin). unfold set3.
      destruct (decide (base_index v x = (i, j, k))) as [Hx|Hx].
      * rewrite (bool_decide_eq_true_2 _ Hx).
        apply base_index_inv in Hx. simpl in Hx. subst x.
        rewrite bool_decide_eq_true_2; [done|]. by left.
      * rewrite (bool_decide_eq_false_2 _ Hx).
        rewrite bool_decide_eq_false_2; [done|].
        intros [E|?]%elem_of_cons; [|done]. apply Hx. apply base_index_inv. by rewrite <- E.
Qed.

(** * Positions, cells and local indices *)

Lemma local_of_in_section p : in_section (local_of p).
Proof. unfold in_section, local_of. simpl. shifts. repeat split; zdiv. Qed.

Lemma pos_decompose p :
  vx p = 16 * (chunk_of p).1 + (local_of p).2 ∧
  vy p = 16 * section_of p + (local_of p).1.1 ∧
  vz p = 16 * (chunk_of p).2 + (local_of p).1.2.
Proof. unfold chunk_of, section_of, local_of. simpl. shifts. lia. Qed.

Lemma world_pos_cell cx cy cz l :
  in_section l →
  chunk_of (world_pos cx cy cz l) = (cx, cz) ∧ section_of (world_pos cx cy cz l) = cy
  ∧ local_of (world_pos cx cy cz l) = l.
Proof.
  destruct l as [[ly lz] lx]. unfold in_section, chunk_of, section_of, local_of, world_pos.
  simpl. intros (Hy & Hz & Hx). shifts.
  rewrite (section_coord_unique (16 * cx + lx) cx lx) by lia.
  rewrite (section_coord_unique (16 * cy + ly) cy ly) by lia.
  rewrite (section_coord_unique (16 * cz + lz) cz lz) by lia.
  split; [done|]. split; [done|]. repeat f_equal; lia.
Qed.

Lemma world_pos_local p :
  world_pos (chunk_of p).1 (section_of p) (chunk_of p).2 (local_of p) = p.
Proof.
  destruct p as [x y z]. unfold world_pos, chunk_of, section_of, local_of. simpl. shifts.
  f_equal; lia.
Qed.

(** * Voxels of a dimension with one section replaced *)

Lemma voxelAt_Some dm p v :
  voxelAt dm p = Some v ↔
  ∃ ch sec, chunks dm !! chunk_of p = Some ch ∧ sections ch !! section_of p = Some sec
    ∧ v = (at3 (Blocks sec) (local_of p), at3 (Data sec) (local_of p)).
Proof.
  unfold voxelAt. split.
  - intros H. destruct (chunks dm !! chunk_of p) as [ch|] eqn:Hc; [|done]. simpl in H.
    destruct (sections ch !! section_of p) as [sec|] eqn:Hs; [|done]. simpl in H.
    exists ch, sec. by simplify_eq.
  - intros (ch & sec & -> & Hs & ->). simpl. by rewrite Hs.
Qed.

Lemma voxelAt_with_section_same dm cpos ch cy sec p :
  chunk_of p = cpos → section_of p = cy →
  voxelAt (with_section dm cpos ch cy sec) p
  = Some (at3 (Blocks sec) (local_of p), at3 (Data sec) (local_of p)).
Proof.
  intros <- <-. unfold voxelAt, with_section. simpl.
  rewrite lookup_insert_eq. simpl. by rewrite lookup_insert_eq.
Qed.

Lemma voxelAt_with_section_other dm cpos ch cy sec p :
  chunks dm !! cpos = Some ch →
  ¬ (chunk_of p = cpos ∧ section_of p = cy) →
  voxelAt (with_section dm cpos ch cy sec) p = voxelAt dm p.
Proof.
  intros Hch Hne. unfold voxelAt, with_section. simpl.
  destruct (decide (chunk_of p = cpos)) as [<-|Hc].
  - rewrite lookup_insert_eq, Hch. simpl. rewrite lookup_insert_ne; [done|]. naive_solver.
  - by rewrite lookup_insert_ne.
Qed.

Lemma chunks_with_section dm cpos ch cy sec c :
  chunks dm !! cpos = Some ch →
  is_Some (chunks (with_section dm cpos ch cy sec) !! c) ↔ is_Some (chunks dm !! c).
Proof.
  intros Hch. unfold with_section. simpl.
  destruct (decide (cpos = c)) as [<-|Hc].
  - rewrite lookup_insert_eq, Hch. split; eauto.
  - by rewrite lookup_insert_ne.
Qed.

Lemma vget_at3 {A} (m : Arr3 A) v p : vget m v p = at3 m (base_index v p).
Proof. destruct p as [[i j] k]. reflexivity. Qed.

(** * The source voxel behind a written destination voxel *)

(** A destination voxel of the cell that the masked write selects: its index
    in the source view is the local index of the voxel [copyOffset] before it,
    inside the source section, and set in the mask. *)
Lemma selected_voxel_source a sourceCpos sourceCy destCpos destCy (sourceMask : Arr3 bool) p :
  cell_geometry a sourceCpos sourceCy destCpos destCy →
  chunk_of p = destCpos → section_of p = destCy →
  let inter := cell_inter a sourceCpos sourceCy destCpos destCy in
  let sv := subarray (sourceSlices_of (cell_sourceIntersect a inter) sourceCpos sourceCy) in
  let dv := subarray (destSlices_of inter destCpos destCy) in
  let idx := ((local_of p).1.1 - lo0 dv, (local_of p).1.2 - lo1 dv, (local_of p).2 - lo2 dv) in
  idx ∈ nonzero3 sourceMask sv →
  in_section (base_index sv idx)
  ∧ world_pos sourceCpos.1 sourceCy sourceCpos.2 (base_index sv idx) = vsub p (copyOffset a)
  ∧ at3 sourceMask (base_index sv idx) = true.
Proof.
  intros [Gx Gy Gz Gdv Gsv Gsize Gorigin] Hc Hs. cbv zeta.
  rewrite elem_of_nonzero3, vget_at3. rewrite Gdv, Gsv. unfold shape. cbn [lo0 lo1 lo2 n0 n1 n2].
  rewrite elem_of_ndindex. rewrite Gsize. cbn [vx vy vz].
  destruct (pos_decompose p) as (Px & Py & Pz). rewrite Hc, Hs in *.
  pose proof (local_of_in_section p) as (Ly & Lz & Lx).
  intros [(Hi & Hj & Hk) Hm].
  split; [|split; [|done]].
  - unfold in_section, base_index. cbn [fst snd lo0 lo1 lo2]. lia.
  - unfold world_pos, base_index, vsub. cbn [fst snd lo0 lo1 lo2 vx vy vz]. shifts.
    destruct p as [x y z]. cbn [vx vy vz] in *. f_equal; lia.
Qed.

(** Conversely, a selected source voxel that lands in the cell is selected by
    the masked write. *)
Lemma source_voxel_selected a sourceCpos sourceCy destCpos destCy (sourceMask : Arr3 bool) p :
  cell_geometry a sourceCpos sourceCy destCpos destCy →
  chunk_of p = destCpos → section_of p = destCy →
  chunk_of (vsub p (copyOffset a)) = sourceCpos →
  section_of (vsub p (copyOffset a)) = sourceCy →
  at3 sourceMask (local_of (vsub p (copyOffset a))) = true →
  let inter := cell_inter a sourceCpos sourceCy destCpos destCy in
  let sv := subarray (sourceSlices_of (cell_sourceIntersect a inter) sourceCpos sourceCy) in
  let dv := subarray (destSlices_of inter destCpos destCy) in
  let idx := ((local_of p).1.1 - lo0 dv, (local_of p).1.2 - lo1 dv, (local_of p).2 - lo2 dv) in
  idx ∈ nonzero3 sourceMask sv ∧ base_index sv idx = local_of (vsub p (copyOffset a)).
Proof.
  intros [Gx Gy Gz Gdv Gsv Gsize Gorigin] Hc Hs Hsc Hss Hm. cbv zeta.
  rewrite elem_of_nonzero3, vget_at3. rewrite Gdv, Gsv. unfold shape. cbn [lo0 lo1 lo2 n0 n1 n2].
  rewrite elem_of_ndindex. rewrite Gsize. cbn [vx vy vz].
  destruct (pos_decompose p) as (Px & Py & Pz). rewrite Hc, Hs in *.
  destruct (pos_decompose (vsub p (copyOffset a))) as (Qx & Qy & Qz). rewrite Hsc, Hss in *.
  pose proof (local_of_in_section p) as (Ly & Lz & Lx).
  pose proof (local_of_in_section (vsub p (copyOffset a))) as (My & Mz & Mx).
  assert (Vx : vx (vsub p (copyOffset a)) = vx p - vx (copyOffset a)) by reflexivity.
  assert (Vy : vy (vsub p (copyOffset a)) = vy p - vy (copyOffset a)) by reflexivity.
  assert (Vz : vz (vsub p (copyOffset a)) = vz p - vz (copyOffset a)) by reflexivity.
  rewrite Vx in Qx. rewrite Vy in Qy. rewrite Vz in Qz. clear Vx Vy Vz.
  assert (Hb : base_index
    {| lo0 := (16 * destCy) `max` (16 * sourceCy + vy (copyOffset a)) - vy (copyOffset a) - 16 * sourceCy;
       lo1 := (16 * destCpos.2) `max` (16 * sourceCpos.2 + vz (copyOffset a)) - vz (copyOffset a) - 16 * sourceCpos.2;
       lo2 := (16 * destCpos.1) `max` (16 * sourceCpos.1 + vx (copyOffset a)) - vx (copyOffset a) - 16 * sourceCpos.1;
       n0 := (16 * destCy + 16) `min` (16 * sourceCy + vy (copyOffset a) + 16)
             - (16 * destCy) `max` (16 * sourceCy + vy (copyOffset a));
       n1 := (16 * destCpos.2 + 16) `min` (16 * sourceCpos.2 + vz (copyOffset a) + 16)
             - (16 * destCpos.2) `max` (16 * sourceCpos.2 + vz (copyOffset a));
       n2 := (16 * destCpos.1 + 16) `min` (16 * sourceCpos.1 + vx (copyOffset a) + 16)
             - (16 * destCpos.1) `max` (16 * sourceCpos.1 + vx (copyOffset a)) |}
    ((local_of p).1.1 - ((16 * destCy) `max` (16 * sourceCy + vy (copyOffset a)) - 16 * destCy),
     (local_of p).1.2 - ((16 * destCpos.2) `max` (16 * sourceCpos.2 + vz (copyOffset a)) - 16 * destCpos.2),
     (local_of p).2 - ((16 * destCpos.1) `max` (16 * sourceCpos.1 + vx (copyOffset a)) - 16 * destCpos.1))
    = local_of (vsub p (copyOffset a))).
  { remember (local_of (vsub p (copyOffset a))) as m eqn:Em in *. clear Em.
    destruct m as [[my mz] mx].
    unfold base_index. cbn [fst snd lo0 lo1 lo2] in *. repeat f_equal; lia. }
  rewrite Hb. split; [|done]. split; [|done]. lia.
Qed.

(** * The store relation along a run between two distinct dimensions *)

Section StoreStep.
Context (a : CopyArgs) (convertBlocks : Z → Z → Z * Z).
Hypothesis Hdistinct : sourceDim a ≠ destDim a.

Lemma store_step_dims_eq s s' :
    (∀ k, dims (world s') k = dims (world s) k) → store_step a convertBlocks s s'.
  Proof.
    intros H. split.
    - intros k _. apply H.
    - by rewrite H.
    - by rewrite H.
    - by rewrite H.
    - intros c. by rewrite H.
    - intros c. rewrite H. by left.
    - intros p v Hv. left. by rewrite H.
    - intros p Hn Hs. rewrite H, Hn in Hs. by destruct Hs.
  Qed.

Lemma store_step_refl s : store_step a convertBlocks s s.
  Proof. by apply store_step_dims_eq. Qed.

Lemma store_step_trans s1 s2 s3 :
    store_step a convertBlocks s1 s2 → store_step a convertBlocks s2 s3 →
    store_step a convertBlocks s1 s3.
  Proof.
    intros [O1 B1 N1 C1 K1 M1 V1 W1] [O2 B2 N2 C2 K2 M2 V2 W2].
    pose proof (O1 _ Hdistinct) as Hsrc.
    split.
    - intros k Hk. by rewrite O2, O1.
    - congruence.
    - congruence.
    - congruence.
    - eauto.
    - intros c Hc. destruct (M2 c Hc) as [H|H]; [eauto|by right].
    - intros p v Hv. destruct (V1 p v Hv) as [H1|(Hc & u & Hu & H1)].
      + destruct (V2 p v H1) as [H2|(Hc & u & Hu & H2)]; [by left|].
        right. split; [done|]. exists u. rewrite <- Hsrc. done.
      + right. split; [done|]. exists u. split; [done|].
        destruct (V2 p _ H1) as [H2|(_ & u' & Hu' & H2)]; [done|].
        rewrite Hsrc in Hu'. congruence.
    - intros p Hn Hs. destruct (voxelAt (dims (world s2) (destDim a)) p) as [v|] eqn:H2.
      + apply W1; [done|]. by rewrite H2.
      + rewrite <- N1. by apply W2.
  Qed.

  (** The source section a cell reads is the one the source dimension holds. *)
Lemma getSection_after_create s destCpos destCy (destChunk : Chunk) destSection w1 cpos cy :
    (sections destChunk !! destCy = Some destSection ∧ w1 = world s
     ∨ sections destChunk !! destCy = None
       ∧ newSection (dims (world s) (destDim a)) destCy = Some destSection
       ∧ w1 = put_chunk (world s) (destDim a) destCpos
                (set_sections destChunk (<[destCy := destSection]> (sections destChunk)))) →
    getSection w1 (sourceDim a) cpos cy = getSection (world s) (sourceDim a) cpos cy.
  Proof.
    intros [[_ ->]|(_ & _ & ->)]; [done|].
    unfold getSection. rewrite dims_put_chunk. by rewrite bool_decide_eq_false_2.
  Qed.

Lemma store_step_cell sourceCpos sourceCy sourceMask destCpos destCy s s' :
    mask_sound a sourceCpos sourceCy sourceMask →
    copy_cell a convertBlocks sourceCpos sourceCy sourceMask
              (translated a sourceCpos sourceCy) destCpos destCy s = Some s' →
    store_step a convertBlocks s s'.
  Proof.
    intros Hmask Hcell.
    apply copy_cell_Some in Hcell
      as [->|(destChunk & destSection & sourceSection & w1 & cl & Hv & Hch & Hcase & Hsrc & Hshape & ->)];
      [apply store_step_refl|].
    change (intersect _ (translated a sourceCpos sourceCy))
      with (cell_inter a sourceCpos sourceCy destCpos destCy) in *.
    pose proof (cell_geometry_of _ _ _ _ _ Hv) as G.
    rewrite (getSection_after_create _ _ _ _ _ _ _ _ Hcase) in Hsrc.
    set (inter := cell_inter a sourceCpos sourceCy destCpos destCy) in *.
    set (sv := subarray (sourceSlices_of (cell_sourceIntersect a inter) sourceCpos sourceCy)) in *.
    set (dv := subarray (destSlices_of inter destCpos destCy)) in *.
    set (nz := nonzero3 sourceMask sv) in *.
    set (sec' := written_section convertBlocks sourceSection destSection sv dv nz).
    set (d := dims (world s) (destDim a)) in *.
    match goal with |- store_step _ _ _ ?t => set (s' := t) end.
    assert (Hd : ∀ k, dims (world s') k =
                      if bool_decide (k = destDim a)
                      then with_section d destCpos destChunk destCy sec' else dims (world s) k).
    { intros k. subst s'. rewrite update_lights_dims. cbn [world with_world emit dims].
      apply (put_section_after_create _ _ _ _ _ destSection _ _ Hch Hcase). }
    assert (Hdd : dims (world s') (destDim a) = with_section d destCpos destChunk destCy sec')
      by (by rewrite Hd, bool_decide_eq_true_2).
    clearbody s'.
    split.
    - intros k Hk. by rewrite Hd, bool_decide_eq_false_2.
    - by rewrite Hdd.
    - by rewrite Hdd.
    - by rewrite Hdd.
    - intros c. rewrite Hdd. by rewrite chunks_with_section.
    - intros c. rewrite Hdd. rewrite chunks_with_section by done. by left.
    - intros p v Hp. rewrite Hdd.
      destruct (decide (chunk_of p = destCpos ∧ section_of p = destCy)) as [[Hc Hs]|Hne];
        [|left; by rewrite voxelAt_with_section_other].
      rewrite voxelAt_with_section_same by done.
      apply voxelAt_Some in Hp as (ch & sec & Hch' & Hsec & ->).
      rewrite Hc in Hch'. rewrite Hs in Hsec. fold d in Hch'.
      assert (ch = destChunk) as -> by congruence.
      destruct Hcase as [[Hsec' _]|(Hsec' & _)]; [|congruence].
      assert (sec = destSection) as -> by congruence.
      unfold sec', written_section, at3. cbn [Blocks Data].
      rewrite !masked_assign_at.
      case_bool_decide as Hin; [|by left].
      right.
      destruct (selected_voxel_source a sourceCpos sourceCy destCpos destCy sourceMask p G Hc Hs Hin)
        as (Hl & Hw & Hm).
      split.
      { rewrite <- Hw. by apply Hmask. }
      destruct (world_pos_cell sourceCpos.1 sourceCy sourceCpos.2 _ Hl) as (Wc & Ws & Wl).
      rewrite Hw in Wc, Ws, Wl.
      unfold getSection in Hsrc.
      destruct (chunks (dims (world s) (sourceDim a)) !! sourceCpos) as [sch|] eqn:Hsch; [|done].
      cbn [mbind option_bind] in Hsrc.
      eexists (_, _). split.
      + apply voxelAt_Some. exists sch, sourceSection.
        rewrite Wc, Ws, Wl. destruct sourceCpos. split; [done|]. split; [done|]. reflexivity.
      + cbn [fst snd]. rewrite !vget_at3. by destruct (convertBlocks _ _).
    - intros p Hn Hs. rewrite Hdd in Hs.
      destruct (decide (chunk_of p = destCpos ∧ section_of p = destCy)) as [[Hc Hs']|Hne].
      + destruct Hcase as [[Hsec' _]|(Hsec' & Hnew & _)].
        * exfalso. unfold voxelAt in Hn. rewrite Hc, Hs' in Hn. fold d in Hn.
          rewrite Hch in Hn. cbn [mbind option_bind] in Hn. by rewrite Hsec' in Hn.
        * rewrite Hs'. fold d. by rewrite Hnew.
      + rewrite voxelAt_with_section_other in Hs by done. fold d in Hn. rewrite Hn in Hs.
        by destruct Hs.
  Qed.
End StoreStep.

(** * Loops in the error monad *)

Section FoldM.
Context {A S : Type} (f : A → S → option S).

Lemma foldM_app l1 l2 s : foldM f (l1 ++ l2) s = foldM f l1 s ≫= foldM f l2.
  Proof.
    revert s. induction l1 as [|x l1 IH]; intros s; [done|].
    simpl. destruct (f x s) as [s1|]; [apply IH|done].
  Qed.

  (** A preorder that every iteration respects relates the two ends of the loop. *)
Lemma foldM_rel (R : S → S → Prop) l s s' :
    (∀ s, R s s) → (∀ s1 s2 s3, R s1 s2 → R s2 s3 → R s1 s3) →
    (∀ x s1 s2, x ∈ l → f x s1 = Some s2 → R s1 s2) →
    foldM f l s = Some s' → R s s'.
  Proof.
    intros Hrefl Htrans. revert s. induction l as [|x l IH]; intros s Hstep H.
    - simpl in H. injection H as <-. apply Hrefl.
    - simpl in H. destruct (f x s) as [s1|] eqn:Hx; [|done]. simpl in H.
      eapply Htrans.
      + eapply Hstep; [left|done].
      + apply IH; [|done]. intros y s2 s3 Hy. apply Hstep. by right.
  Qed.

  (** What the iteration for [x] establishes, and later iterations keep, holds
      at the end of the loop. *)
Lemma foldM_reach (R : S → S → Prop) (P : S → Prop) x l s s' :
    (∀ s, R s s) → (∀ s1 s2 s3, R s1 s2 → R s2 s3 → R s1 s3) →
    (∀ y s1 s2, f y s1 = Some s2 → R s1 s2) →
    (∀ s1 s2, R s s1 → f x s1 = Some s2 → P s2) →
    (∀ s1 s2, P s1 → R s1 s2 → P s2) →
    x ∈ l → foldM f l s = Some s' → P s'.
  Proof.
    intros Hrefl Htrans Hstep Hest Hkeep Hin H.
    apply list_elem_of_split in Hin as (l1 & l2 & ->).
    rewrite foldM_app in H. apply bind_Some in H as (s1 & H1 & H2).
    simpl in H2. apply bind_Some in H2 as (s2 & Hx & H2).
    eapply Hkeep.
    - eapply Hest; [|done]. eapply foldM_rel; eauto.
    - eapply foldM_rel; eauto.
  Qed.
End FoldM.

(** * From the steps of the operation to its loops *)

Section Lift.
Context (a : CopyArgs) (makeSourceMask : Arr3 Z → option MaskArr)
          (convertBlocks : Z → Z → Z * Z).
Variable R : Frame → Frame → Prop.
Hypothesis R_refl : ∀ s, R s s.
Hypothesis R_trans : ∀ s1 s2 s3, R s1 s2 → R s2 s3 → R s1 s3.
Hypothesis R_cell : ∀ sourceCpos sourceCy selectionMask typeMask destCpos destCy s s',
    section_mask (sourceSelection a) sourceCpos.1 sourceCy sourceCpos.2 = Some selectionMask →
    copy_cell a convertBlocks sourceCpos sourceCy (mask_and selectionMask typeMask)
              (translated a sourceCpos sourceCy) destCpos destCy s = Some s' →
    R s s'.
Hypothesis R_getChunk : ∀ s c,
    create a = true ∨ is_Some (chunks (dims (world s) (destDim a)) !! c) →
    R s (with_world s (getChunk_create (world s) (destDim a) c)).
Hypothesis R_dirty : ∀ s c, R s (with_world s (mark_dirty (world s) (destDim a) c)).
Hypothesis R_mask : ∀ s m, R s (with_sourceBiomeMask s m).
Hypothesis R_biomes : ∀ s s' c, copy_biomes a c s = Some s' → R s s'.
Hypothesis R_entities : ∀ s ch, entities a = true → R s (copy_entities a ch s).
Hypothesis R_tileEntities : ∀ s ch, R s (copy_tileEntities a ch s).
Hypothesis R_i : ∀ s n, R s (with_i s n).

Lemma R_dest_chunk sourceCpos sourceCy selectionMask typeMask destCpos s s' :
    section_mask (sourceSelection a) sourceCpos.1 sourceCy sourceCpos.2 = Some selectionMask →
    copy_dest_chunk a convertBlocks sourceCpos sourceCy (mask_and selectionMask typeMask)
                    (translated a sourceCpos sourceCy) destCpos s = Some s' →
    R s s'.
  Proof.
    intros Hmask. unfold copy_dest_chunk.
    destruct (negb (create a) && negb (containsChunk _ _)) eqn:Hguard.
    { intros [= <-]. apply R_refl. }
    intros H. apply bind_Some in H as (s2 & Hloop & [= <-]).
    eapply R_trans; [|eapply R_trans; [|apply R_dirty]].
    - apply R_getChunk. apply andb_false_iff in Hguard as [Hc|Hc].
      + left. by destruct (create a).
      + right. apply negb_false_iff in Hc. by apply bool_decide_eq_true in Hc.
    - eapply foldM_rel; [apply R_refl|apply R_trans| |exact Hloop].
      intros destCy s1 s3 _ Hcell. eapply R_cell; eauto.
  Qed.

Lemma R_section sourceCpos hasBiomes sourceCy s s' :
    copy_section a makeSourceMask convertBlocks sourceCpos hasBiomes sourceCy s = Some s' →
    R s s'.
  Proof.
    unfold copy_section.
    destruct (getSection _ _ _ _) as [sourceSection|]; [|intros [= <-]; apply R_refl].
    destruct (section_mask _ _ _ _) as [selectionMask|] eqn:Hmask; [|intros [= <-]; apply R_refl].
    intros H. apply bind_Some in H as (typeMask & _ & Hloop).
    eapply (R_trans _ (if hasBiomes then _ else s));
      [|eapply foldM_rel; [apply R_refl|apply R_trans| |exact Hloop]].
    - destruct hasBiomes; [apply R_mask|apply R_refl].
    - intros destCpos s1 s2 _ Hd. eapply R_dest_chunk; eauto.
  Qed.

Lemma R_process_chunk sourceCpos s s' :
    process_chunk a makeSourceMask convertBlocks sourceCpos s = Some s' → R s s'.
  Proof.
    unfold process_chunk. intros H.
    apply bind_Some in H as (sourceChunk & _ & H). cbv zeta in H.
    set (hasBiomes := biomes a && bool_decide (is_Some (Biomes sourceChunk))) in H.
    apply bind_Some in H as (s1 & Hloop & H).
    apply bind_Some in H as (s2 & Hbio & H).
    apply bind_Some in H as (sourceChunk' & _ & [= <-]).
    assert (R s s1) as H1.
    { eapply (R_trans _ (if hasBiomes then _ else s));
        [|eapply foldM_rel; [apply R_refl|apply R_trans| |exact Hloop]].
      - destruct hasBiomes; [apply R_mask|apply R_refl].
      - intros sourceCy s3 s4 _. apply R_section. }
    assert (R s1 s2) as H2.
    { destruct hasBiomes; [by eapply R_biomes|injection Hbio as <-; apply R_refl]. }
    eapply R_trans; [exact H1|]. eapply R_trans; [exact H2|].
    eapply R_trans; [|apply R_tileEntities].
    destruct (entities a) eqn:He; [by apply R_entities|apply R_refl].
  Qed.

Lemma R_run_chunks cs s s' :
    run_chunks a makeSourceMask convertBlocks cs s = Some s' → R s s'.
  Proof.
    revert s. induction cs as [|c cs IH]; intros s H.
    - injection H as <-. apply R_refl.
    - simpl in H. destruct (containsChunk _ c); [|by apply IH].
      apply bind_Some in H as (s1 & Hc & H).
      eapply R_trans; [apply R_i|]. eapply R_trans; [by eapply R_process_chunk|by apply IH].
  Qed.
End Lift.

(** * Steps that leave every voxel alone *)

Lemma same_voxels_refl d : same_voxels d d.
Proof. by split. Qed.

Lemma same_voxels_trans d1 d2 d3 : same_voxels d1 d2 → same_voxels d2 d3 → same_voxels d1 d3.
Proof.
  intros [B1 N1 C1 K1 S1 L1] [B2 N2 C2 K2 S2 L2]. split.
  - congruence.
  - congruence.
  - congruence.
  - intros c. by rewrite K2.
  - intros c. by rewrite S2.
  - intros c. by rewrite L2.
Qed.

Lemma same_voxels_voxelAt d d' p : same_voxels d d' → voxelAt d' p = voxelAt d p.
Proof.
  intros [_ _ _ _ Hs _]. unfold voxelAt. specialize (Hs (chunk_of p)).
  destruct (chunks d' !! chunk_of p) as [ch'|], (chunks d !! chunk_of p) as [ch|];
    simpl in *; simplify_eq; try done.
  by rewrite Hs.
Qed.

(** Replacing a chunk by one with the same sections. *)
Lemma same_voxels_replace d c (ch ch' : Chunk) :
  chunks d !! c = Some ch → sections ch' = sections ch →
  Entities ch' = Entities ch → TileEntities ch' = TileEntities ch →
  same_voxels d (set_chunks d (<[c := ch']> (chunks d))).
Proof.
  intros Hch Hs He Ht. split; try done.
  - intros c'. simpl. destruct (decide (c = c')) as [<-|Hne].
    + rewrite lookup_insert_eq, Hch. split; eauto.
    + by rewrite lookup_insert_ne.
  - intros c'. simpl. destruct (decide (c = c')) as [<-|Hne].
    + rewrite lookup_insert_eq, Hch. simpl. by rewrite Hs.
    + by rewrite lookup_insert_ne.
  - intros c'. simpl. destruct (decide (c = c')) as [<-|Hne].
    + rewrite lookup_insert_eq, Hch. simpl. by rewrite He, Ht.
    + by rewrite lookup_insert_ne.
Qed.

Lemma same_voxels_setBiome d x z v : same_voxels d (setBiome d x z v).
Proof.
  unfold setBiome. destruct (chunks d !! (x ≫ 4, z ≫ 4)) as [ch|] eqn:Hch;
    [|apply same_voxels_refl].
  destruct (Biomes ch) as [b|]; [|apply same_voxels_refl].
  by apply (same_voxels_replace _ _ ch).
Qed.

Lemma same_voxels_setBlocks_Biomes d x z vals : same_voxels d (setBlocks_Biomes d x z vals).
Proof.
  unfold setBlocks_Biomes. generalize (zip (zip x z) vals). intros l. revert d.
  induction l as [|c l IH]; intros d; [apply same_voxels_refl|].
  simpl. eapply same_voxels_trans; [apply same_voxels_setBiome|apply IH].
Qed.

Lemma dims_foldl_emit {A} (f : A → Event) (l : list A) w :
  dims (foldl (λ w e, emit w (f e)) w l) = dims w.
Proof. revert w. induction l as [|x l IH]; intros w; [done|]. simpl. by rewrite IH. Qed.

Lemma log_foldl_emit {A} (f : A → Event) (l : list A) w :
  log (foldl (λ w e, emit w (f e)) w l) = log w ++ (f <$> l).
Proof.
  revert w. induction l as [|x l IH]; intros w; simpl.
  - by rewrite app_nil_r.
  - rewrite IH. simpl. by rewrite <- app_assoc.
Qed.

Section StoreStepLoops.
Context (a : CopyArgs) (makeSourceMask : Arr3 Z → option MaskArr)
          (convertBlocks : Z → Z → Z * Z).
Hypothesis Hdistinct : sourceDim a ≠ destDim a.
Hypothesis Hwf : Selection_wf (sourceSelection a).

Lemma store_step_same_voxels s s' :
    (∀ k, k ≠ destDim a → dims (world s') k = dims (world s) k) →
    same_voxels (dims (world s) (destDim a)) (dims (world s') (destDim a)) →
    store_step a convertBlocks s s'.
  Proof.
    intros Ho Hs. pose proof Hs as [B N C K S L]. split; try done.
    - intros c. by rewrite K.
    - intros c. rewrite K. by left.
    - intros p v Hv. left. by rewrite (same_voxels_voxelAt _ _ p Hs).
    - intros p Hn Hp. rewrite (same_voxels_voxelAt _ _ p Hs), Hn in Hp. by destruct Hp.
  Qed.

Lemma store_step_getChunk s c :
    create a = true ∨ is_Some (chunks (dims (world s) (destDim a)) !! c) →
    store_step a convertBlocks s (with_world s (getChunk_create (world s) (destDim a) c)).
  Proof.
    intros Hguard. unfold getChunk_create.
    destruct (chunks (dims (world s) (destDim a)) !! c) as [ch|] eqn:Hch.
    { by apply store_step_dims_eq. }
    destruct Hguard as [Hcreate|[? ?]]; [|done].
    split; cbn [world with_world].
    - intros k Hk. by rewrite dims_put_chunk, bool_decide_eq_false_2.
    - by rewrite dims_put_chunk, bool_decide_eq_true_2.
    - by rewrite dims_put_chunk, bool_decide_eq_true_2.
    - by rewrite dims_put_chunk, bool_decide_eq_true_2.
    - intros c'. rewrite dims_put_chunk, bool_decide_eq_true_2 by done. simpl.
      intros Hc'. rewrite lookup_insert_ne; [done|]. intros ->. rewrite Hch in Hc'.
      by destruct Hc'.
    - intros c' _. by right.
    - intros p v Hv. left. rewrite dims_put_chunk, bool_decide_eq_true_2 by done.
      unfold voxelAt in *. simpl.
      rewrite lookup_insert_ne; [done|]. intros ->. by rewrite Hch in Hv.
    - intros p Hn Hp. rewrite dims_put_chunk, bool_decide_eq_true_2 in Hp by done.
      unfold voxelAt in Hp, Hn. simpl in Hp.
      destruct (decide (c = chunk_of p)) as [->|Hne].
      + rewrite lookup_insert_eq in Hp. simpl in Hp. rewrite lookup_empty in Hp.
        by destruct Hp.
      + rewrite lookup_insert_ne in Hp by done. rewrite Hn in Hp. by destruct Hp.
  Qed.

Lemma store_step_dirty s c :
    store_step a convertBlocks s (with_world s (mark_dirty (world s) (destDim a) c)).
  Proof.
    unfold mark_dirty.
    destruct (chunks (dims (world s) (destDim a)) !! c) as [ch|] eqn:Hch;
      [|by apply store_step_dims_eq].
    apply store_step_same_voxels; cbn [world with_world].
    - intros k Hk. by rewrite dims_put_chunk, bool_decide_eq_false_2.
    - rewrite dims_put_chunk, bool_decide_eq_true_2 by done.
      by apply (same_voxels_replace _ _ ch).
  Qed.

Lemma store_step_biomes s s' c : copy_biomes a c s = Some s' → store_step a convertBlocks s s'.
  Proof.
    unfold copy_biomes. intros H.
    apply bind_Some in H as (sourceChunk & _ & H).
    apply bind_Some in H as (sourceBiomes & _ & H).
    apply bind_Some in H as (mask & _ & [= <-]).
    apply store_step_same_voxels; cbn [world with_world emit dims].
    - intros k Hk. by rewrite dims_set_dim, bool_decide_eq_false_2.
    - rewrite dims_set_dim, bool_decide_eq_true_2 by done.
      apply same_voxels_setBlocks_Biomes.
  Qed.

Lemma store_step_entities s ch : store_step a convertBlocks s (copy_entities a ch s).
  Proof.
    apply store_step_dims_eq. intros k. unfold copy_entities.
    cbn [world with_world]. by rewrite dims_foldl_emit.
  Qed.

Lemma store_step_tileEntities s ch : store_step a convertBlocks s (copy_tileEntities a ch s).
  Proof.
    apply store_step_dims_eq. intros k. unfold copy_tileEntities.
    cbn [world with_world]. by rewrite dims_foldl_emit.
  Qed.

Lemma mask_and_sound sourceCpos sourceCy selectionMask typeMask :
    section_mask (sourceSelection a) sourceCpos.1 sourceCy sourceCpos.2 = Some selectionMask →
    mask_sound a sourceCpos sourceCy (mask_and selectionMask typeMask).
  Proof.
    intros Hm l Hl Ht. rewrite <- (mask_contains _ Hwf _ _ _ _ _ Hm Hl).
    unfold at3, mask_and in *. destruct typeMask; by apply andb_true_iff in Ht as [? _].
  Qed.

Lemma store_step_cell_of sourceCpos sourceCy selectionMask typeMask destCpos destCy s s' :
    section_mask (sourceSelection a) sourceCpos.1 sourceCy sourceCpos.2 = Some selectionMask →
    copy_cell a convertBlocks sourceCpos sourceCy (mask_and selectionMask typeMask)
              (translated a sourceCpos sourceCy) destCpos destCy s = Some s' →
    store_step a convertBlocks s s'.
  Proof.
    intros Hm. apply store_step_cell; [done|]. by apply mask_and_sound.
  Qed.

  (** Each primitive step of the loop body is a store step. *)
Local Ltac store_prim :=
    intros;
    first [ apply store_step_refl; assumption
          | eapply store_step_cell_of; eassumption
          | apply store_step_getChunk; assumption
          | apply store_step_dirty
          | eapply store_step_biomes; eassumption
          | apply store_step_entities
          | apply store_step_tileEntities
          | apply store_step_dims_eq; done
          | eapply store_step_trans; eassumption ].

Lemma store_step_dest_chunk sourceCpos sourceCy selectionMask typeMask destCpos s s' :
    section_mask (sourceSelection a) sourceCpos.1 sourceCy sourceCpos.2 = Some selectionMask →
    copy_dest_chunk a convertBlocks sourceCpos sourceCy (mask_and selectionMask typeMask)
                    (translated a sourceCpos sourceCy) destCpos s = Some s' →
    store_step a convertBlocks s s'.
  Proof. apply (R_dest_chunk a convertBlocks (store_step a convertBlocks)); store_prim. Qed.

Lemma store_step_section sourceCpos hasBiomes sourceCy s s' :
    copy_section a makeSourceMask convertBlocks sourceCpos hasBiomes sourceCy s = Some s' →
    store_step a convertBlocks s s'.
  Proof.
    apply (R_section a makeSourceMask convertBlocks (store_step a convertBlocks)); store_prim.
  Qed.

Lemma store_step_process_chunk sourceCpos s s' :
    process_chunk a makeSourceMask convertBlocks sourceCpos s = Some s' →
    store_step a convertBlocks s s'.
  Proof.
    apply (R_process_chunk a makeSourceMask convertBlocks (store_step a convertBlocks));
      store_prim.
  Qed.

Lemma store_step_run_chunks cs s s' :
    run_chunks a makeSourceMask convertBlocks cs s = Some s' →
    store_step a convertBlocks s s'.
  Proof.
    apply (R_run_chunks a makeSourceMask convertBlocks (store_step a convertBlocks));
      store_prim.
  Qed.
End StoreStepLoops.

(** * A destination cell that holds a translated voxel of a source cell *)

Lemma point_in_cell a sourceCpos sourceCy destCpos destCy p :
  chunk_of p = destCpos → section_of p = destCy →
  chunk_of (vsub p (copyOffset a)) = sourceCpos →
  section_of (vsub p (copyOffset a)) = sourceCy →
  volume (cell_inter a sourceCpos sourceCy destCpos destCy) ≠ 0.
Proof.
  intros Hc Hs Hsc Hss.
  destruct (pos_decompose p) as (Px & Py & Pz).
  destruct (pos_decompose (vsub p (copyOffset a))) as (Qx & Qy & Qz).
  pose proof (local_of_in_section p) as (Ly & Lz & Lx).
  pose proof (local_of_in_section (vsub p (copyOffset a))) as (My & Mz & Mx).
  assert (Vx : vx (vsub p (copyOffset a)) = vx p - vx (copyOffset a)) by reflexivity.
  assert (Vy : vy (vsub p (copyOffset a)) = vy p - vy (copyOffset a)) by reflexivity.
  assert (Vz : vz (vsub p (copyOffset a)) = vz p - vz (copyOffset a)) by reflexivity.
  rewrite Hc, Hs in *. rewrite Hsc, Hss in *.
  rewrite Vx in Qx. rewrite Vy in Qy. rewrite Vz in Qz. clear Vx Vy Vz Hc Hs Hsc Hss.
  destruct sourceCpos as [scx scz], destCpos as [dcx dcz]. cbn [fst snd] in *.
  unfold cell_inter, intersect, translated, SectionBox, volume,
    minx, miny, minz, maxx, maxy, maxz, vadd, vsub.
  cbn -[Z.max Z.min Z.shiftl Z.mul copyOffset local_of]. shifts.
  case_bool_decide as Hd; [exfalso; lia|].
  cbn -[Z.max Z.min Z.mul copyOffset local_of].
  apply Z.neq_mul_0. split; [apply Z.neq_mul_0; split|]; lia.
Qed.

Lemma cell_in_translated a sourceCpos sourceCy destCpos destCy :
  cell_geometry a sourceCpos sourceCy destCpos destCy →
  destCpos ∈ chunkPositions (translated a sourceCpos sourceCy)
  ∧ destCy ∈ sectionPositions (translated a sourceCpos sourceCy) destCpos.1 destCpos.2.
Proof.
  intros [Gx Gy Gz _ _ _ _]. destruct destCpos as [dcx dcz]. cbn [fst snd] in *.
  rewrite elem_of_chunkPositions. unfold sectionPositions. rewrite elem_of_range.
  unfold mincx, mincy, mincz, maxcx, maxcy, maxcz, translated, SectionBox,
    minx, miny, minz, maxx, maxy, maxz, vadd.
  cbn -[Z.max Z.min Z.shiftl Z.shiftr Z.mul copyOffset]. shifts.
  repeat split; zdiv.
Qed.

(** * The loops reach every cell *)

Section Reach.
Context (a : CopyArgs) (makeSourceMask : Arr3 Z → option MaskArr)
          (convertBlocks : Z → Z → Z * Z).
Hypothesis Hdistinct : sourceDim a ≠ destDim a.
Hypothesis Hwf : Selection_wf (sourceSelection a).

  (** The run starts in [s0]; the cell in question is the destination section
      at [destCpos], [destCy] seen from the source section at [sourceCpos],
      [sourceCy]. *)
Context (s0 : Frame) (sourceCpos : Z * Z) (sourceCy : Z) (destCpos : Z * Z) (destCy : Z)
          (sourceChunk : Chunk) (sourceSection : Section) (selectionMask : Arr3 bool).
Hypothesis Hchunk : chunks (dims (world s0) (sourceDim a)) !! sourceCpos = Some sourceChunk.
Hypothesis Hsection : sections sourceChunk !! sourceCy = Some sourceSection.
Hypothesis Hselmask :
    section_mask (sourceSelection a) sourceCpos.1 sourceCy sourceCpos.2 = Some selectionMask.
Hypothesis Hvol : volume (cell_inter a sourceCpos sourceCy destCpos destCy) ≠ 0.
Hypothesis Hguard : create a = true ∨ is_Some (chunks (dims (world s0) (destDim a)) !! destCpos).

Variable P : Frame → Prop.
Hypothesis P_keep : ∀ s1 s2,
    store_step a convertBlocks s0 s1 → P s1 → store_step a convertBlocks s1 s2 → P s2.
Hypothesis P_cell : ∀ s1 s2 typeMask,
    store_step a convertBlocks s0 s1 →
    makeSourceMask (Blocks sourceSection) = Some typeMask →
    is_Some (chunks (dims (world s1) (destDim a)) !! destCpos) →
    copy_cell a convertBlocks sourceCpos sourceCy (mask_and selectionMask typeMask)
              (translated a sourceCpos sourceCy) destCpos destCy s1 = Some s2 →
    P s2.

Let P' (s : Frame) : Prop := store_step a convertBlocks s0 s ∧ P s.

Local Lemma P'_keep s1 s2 : P' s1 → store_step a convertBlocks s1 s2 → P' s2.
  Proof.
    intros [H01 HP] H12. split; [by eapply store_step_trans|by eapply P_keep].
  Qed.

Lemma reach_dest_chunk typeMask s1 s2 :
    store_step a convertBlocks s0 s1 →
    makeSourceMask (Blocks sourceSection) = Some typeMask →
    copy_dest_chunk a convertBlocks sourceCpos sourceCy (mask_and selectionMask typeMask)
                    (translated a sourceCpos sourceCy) destCpos s1 = Some s2 →
    P' s2.
  Proof.
    intros H01 Hmk. unfold copy_dest_chunk.
    assert (Hg1 : create a = true ∨ is_Some (chunks (dims (world s1) (destDim a)) !! destCpos)).
    { destruct Hguard as [?|Hc]; [by left|right]. by apply (ss_chunks_kept _ _ _ _ H01). }
    rewrite (proj2 (andb_false_iff _ _)); last first.
    { destruct Hg1 as [->|Hc]; [by left|right].
      apply negb_false_iff. by apply bool_decide_eq_true. }
    intros H. apply bind_Some in H as (s3 & Hloop & [= <-]).
    pose proof (store_step_getChunk a convertBlocks s1 destCpos Hg1) as Hget.
    set (s1' := with_world s1 (getChunk_create (world s1) (destDim a) destCpos)) in *.
    assert (Hpresent : is_Some (chunks (dims (world s1') (destDim a)) !! destCpos)).
    { subst s1'. cbn [world with_world]. unfold getChunk_create.
      destruct (chunks (dims (world s1) (destDim a)) !! destCpos) eqn:E; [by rewrite E|].
      rewrite dims_put_chunk, bool_decide_eq_true_2 by done. simpl.
      by rewrite lookup_insert_eq. }
    pose proof (cell_geometry_of _ _ _ _ _ Hvol) as G.
    destruct (cell_in_translated _ _ _ _ _ G) as [_ Hin].
    eapply P'_keep; [|apply store_step_dirty; done].
    eapply (foldM_reach _ (store_step a convertBlocks) P' destCy);
      [apply store_step_refl|apply store_step_trans; done| | | |exact Hin|exact Hloop].
    - intros y sa sb Hc. eapply store_step_cell_of; eauto.
    - intros sa sb Ha Hc.
      assert (H0a : store_step a convertBlocks s0 sa).
      { eapply store_step_trans; [done|exact H01|].
        eapply store_step_trans; [done|exact Hget|exact Ha]. }
      split.
      + eapply store_step_trans; [done|exact H0a|]. eapply store_step_cell_of; eauto.
      + eapply P_cell; [exact H0a|exact Hmk| |exact Hc].
        by apply (ss_chunks_kept _ _ _ _ Ha).
    - apply P'_keep.
  Qed.

Lemma reach_section hasBiomes s1 s2 :
    store_step a convertBlocks s0 s1 →
    copy_section a makeSourceMask convertBlocks sourceCpos hasBiomes sourceCy s1 = Some s2 →
    P' s2.
  Proof.
    intros H01. unfold copy_section.
    assert (Hsrc : getSection (world s1) (sourceDim a) sourceCpos sourceCy = Some sourceSection).
    { unfold getSection. rewrite (ss_others _ _ _ _ H01) by done. rewrite Hchunk. done. }
    rewrite Hsrc, Hselmask. intros H. apply bind_Some in H as (typeMask & Hmk & Hloop).
    pose proof (cell_geometry_of _ _ _ _ _ Hvol) as G.
    destruct (cell_in_translated _ _ _ _ _ G) as [Hin _].
    set (s1' := if hasBiomes then _ else s1) in Hloop.
    assert (H11' : store_step a convertBlocks s1 s1').
    { subst s1'. destruct hasBiomes; by apply store_step_dims_eq. }
    eapply (foldM_reach _ (store_step a convertBlocks) P' destCpos);
      [apply store_step_refl|apply store_step_trans; done| | | |exact Hin|exact Hloop].
    - intros y sa sb Hc. eapply store_step_dest_chunk; eauto.
    - intros sa sb Ha Hc. eapply reach_dest_chunk; [|exact Hmk|exact Hc].
      eapply store_step_trans; [done|exact H01|].
      eapply store_step_trans; [done|exact H11'|exact Ha].
    - apply P'_keep.
  Qed.

Lemma reach_process_chunk s1 s2 :
    store_step a convertBlocks s0 s1 →
    process_chunk a makeSourceMask convertBlocks sourceCpos s1 = Some s2 →
    P' s2.
  Proof.
    intros H01. unfold process_chunk.
    rewrite (ss_others _ _ _ _ H01) by done. rewrite Hchunk. cbn [mbind option_bind].
    set (hasBiomes := biomes a && bool_decide (is_Some (Biomes sourceChunk))).
    intros H.
    apply bind_Some in H as (s3 & Hloop & H).
    apply bind_Some in H as (s4 & Hbio & H).
    apply bind_Some in H as (sourceChunk' & _ & [= <-]).
    set (s1' := if hasBiomes then _ else s1) in Hloop.
    assert (H11' : store_step a convertBlocks s1 s1').
    { subst s1'. destruct hasBiomes; by apply store_step_dims_eq. }
    assert (Hin : sourceCy ∈ chunk_sectionPositions sourceChunk).
    { unfold chunk_sectionPositions. apply list_elem_of_fmap.
      exists (sourceCy, sourceSection). split; [done|]. by apply elem_of_map_to_list. }
    assert (H3 : P' s3).
    { eapply (foldM_reach _ (store_step a convertBlocks) P' sourceCy);
        [apply store_step_refl|apply store_step_trans; done| | | |exact Hin|exact Hloop].
      - intros y sa sb Hc. eapply store_step_section; eauto.
      - intros sa sb Ha Hc. eapply reach_section; [|exact Hc].
        eapply store_step_trans; [done|exact H01|].
        eapply store_step_trans; [done|exact H11'|exact Ha].
      - apply P'_keep. }
    assert (H4 : P' s4).
    { eapply P'_keep; [exact H3|].
      destruct hasBiomes; [by eapply store_step_biomes|].
      injection Hbio as <-. by apply store_step_refl. }
    eapply P'_keep; [|by apply store_step_tileEntities].
    eapply P'_keep; [exact H4|].
    destruct (entities a); [by apply store_step_entities|by apply store_step_refl].
  Qed.

Lemma reach_run_chunks cs s1 s2 :
    sourceCpos ∈ cs →
    store_step a convertBlocks s0 s1 →
    run_chunks a makeSourceMask convertBlocks cs s1 = Some s2 →
    P s2.
  Proof.
    revert s1. induction cs as [|c cs IH]; intros s1 Hin H01 Hrun.
    { by apply elem_of_nil in Hin. }
    simpl in Hrun.
    assert (Hi : store_step a convertBlocks s1 (with_i s1 (i s1 + 1)))
      by (by apply store_step_dims_eq).
    destruct (decide (c = sourceCpos)) as [->|Hne].
    - unfold containsChunk in Hrun.
      rewrite (ss_others _ _ _ _ H01) in Hrun by done. rewrite Hchunk in Hrun.
      rewrite bool_decide_eq_true_2 in Hrun by eauto.
      apply bind_Some in Hrun as (s3 & Hc & Hrest).
      assert (H3 : P' s3).
      { eapply reach_process_chunk; [|exact Hc]. by eapply store_step_trans. }
      eapply (P'_keep s3 s2 H3). by eapply store_step_run_chunks.
    - apply elem_of_cons in Hin as [?|Hin]; [congruence|].
      destruct (containsChunk _ c); [|by eapply IH].
      apply bind_Some in Hrun as (s3 & Hc & Hrest).
      eapply IH; [done| |exact Hrest].
      eapply store_step_trans; [done|exact H01|].
      eapply store_step_trans; [done|exact Hi|]. by eapply store_step_process_chunk.
  Qed.
End Reach.

(** * The write of a cell whose section can be had *)

Lemma copy_cell_written a convertBlocks sourceCpos sourceCy sourceMask destBox destCpos destCy s s' :
  copy_cell a convertBlocks sourceCpos sourceCy sourceMask destBox destCpos destCy s = Some s' →
  volume (intersect (SectionBox destCpos.1 destCy destCpos.2) destBox) ≠ 0 →
  is_Some (getSection_create (world s) (destDim a) destCpos destCy) →
  ∃ destChunk destSection sourceSection w1,
    let inter := intersect (SectionBox destCpos.1 destCy destCpos.2) destBox in
    let sv := subarray (sourceSlices_of (cell_sourceIntersect a inter) sourceCpos sourceCy) in
    let dv := subarray (destSlices_of inter destCpos destCy) in
    let nz := nonzero3 sourceMask sv in
    chunks (dims (world s) (destDim a)) !! destCpos = Some destChunk ∧
    (sections destChunk !! destCy = Some destSection ∧ w1 = world s
     ∨ sections destChunk !! destCy = None
       ∧ newSection (dims (world s) (destDim a)) destCy = Some destSection
       ∧ w1 = put_chunk (world s) (destDim a) destCpos
                (set_sections destChunk (<[destCy := destSection]> (sections destChunk)))) ∧
    getSection w1 (sourceDim a) sourceCpos sourceCy = Some sourceSection ∧
    ∀ k, dims (world s') k =
         if bool_decide (k = destDim a)
         then with_section (dims (world s) (destDim a)) destCpos destChunk destCy
                (written_section convertBlocks sourceSection destSection sv dv nz)
         else dims (world s) k.
Proof.
  unfold copy_cell. intros H Hv [[destSection w1] Hg].
  rewrite bool_decide_eq_false_2 in H by done.
  apply bind_Some in H as (destChunk & Hch & H).
  rewrite Hg in H.
  apply getSection_create_Some in Hg as (ch & Hch' & Hlog & Hcase).
  assert (ch = destChunk) as -> by congruence.
  apply bind_Some in H as (sourceSection & Hsrc & H).
  apply write_cell_Some in H as (Hshape & cl & ->).
  exists destChunk, destSection, sourceSection, w1.
  split; [done|]. split; [done|]. split; [done|].
  intros k. rewrite update_lights_dims. cbn [world with_world emit dims].
  apply (put_section_after_create _ _ _ _ _ destSection _ _ Hch Hcase).
Qed.

Lemma getSection_create_is_Some w d cpos cy (ch : Chunk) :
  chunks (dims w d) !! cpos = Some ch →
  is_Some (sections ch !! cy) ∨ is_Some (newSection (dims w d) cy) →
  is_Some (getSection_create w d cpos cy).
Proof.
  intros Hch H. unfold getSection_create. rewrite Hch. simpl.
  destruct (sections ch !! cy) as [sec|]; [by eexists|].
  destruct H as [[? ?]|[sec Hs]]; [done|]. rewrite Hs. by eexists.
Qed.

(** * C1: what the destination holds after a copy without allow-list *)

Section Written.
Context (a : CopyArgs) (convertBlocks : Z → Z → Z * Z).
Hypothesis Hdistinct : sourceDim a ≠ destDim a.
Hypothesis Hwf : Selection_wf (sourceSelection a).
Context (s0 : Frame) (p : Vector) (u : Z * Z).

Let q : Vector := vsub p (copyOffset a).
Hypothesis Hcontains : contains (sourceSelection a) q = true.
Hypothesis Hsource : voxelAt (dims (world s0) (sourceDim a)) q = Some u.
Hypothesis Hguard :
    create a = true ∨ is_Some (chunks (dims (world s0) (destDim a)) !! chunk_of p).
Hypothesis Havail :
    is_Some (voxelAt (dims (world s0) (destDim a)) p)
    ∨ is_Some (newSection (dims (world s0) (destDim a)) (section_of p)).

Let Written (s : Frame) : Prop :=
    voxelAt (dims (world s) (destDim a)) p = Some (convertBlocks u.1 u.2).

Local Lemma Written_keep s1 s2 :
    store_step a convertBlocks s0 s1 → Written s1 → store_step a convertBlocks s1 s2 → Written s2.
  Proof.
    intros H01 Hw H12. destruct (ss_voxel _ _ _ _ H12 p _ Hw) as [H|(_ & u' & Hu' & H)]; [done|].
    rewrite (ss_others _ _ _ _ H01) in Hu' by done. fold q in Hu'.
    unfold Written. rewrite H. congruence.
  Qed.

Local Lemma selection_mask_at selectionMask :
    section_mask (sourceSelection a) (chunk_of q).1 (section_of q) (chunk_of q).2
      = Some selectionMask →
    at3 (mask_and selectionMask (Mask1 true)) (local_of q) = true.
  Proof.
    intros Hm. unfold at3, mask_and. rewrite andb_true_r.
    change (at3 selectionMask (local_of q) = true).
    rewrite (mask_contains _ Hwf _ _ _ _ _ Hm (local_of_in_section q)).
    by rewrite world_pos_local.
  Qed.

Local Lemma Written_cell sourceSection selectionMask s1 s2 :
    getSection (world s0) (sourceDim a) (chunk_of q) (section_of q) = Some sourceSection →
    section_mask (sourceSelection a) (chunk_of q).1 (section_of q) (chunk_of q).2
      = Some selectionMask →
    store_step a convertBlocks s0 s1 →
    is_Some (chunks (dims (world s1) (destDim a)) !! chunk_of p) →
    copy_cell a convertBlocks (chunk_of q) (section_of q) (mask_and selectionMask (Mask1 true))
              (translated a (chunk_of q) (section_of q)) (chunk_of p) (section_of p) s1 = Some s2 →
    Written s2.
  Proof.
    intros Hsec Hm H01 [destChunk Hch] Hcell.
    pose proof (point_in_cell a (chunk_of q) (section_of q) (chunk_of p) (section_of p) p
                  eq_refl eq_refl eq_refl eq_refl) as Hvol.
    pose proof (cell_geometry_of _ _ _ _ _ Hvol) as G.
    apply copy_cell_written in Hcell
      as (destChunk' & destSection & sourceSection' & w1 & Hch' & Hcase & Hsrc & Hd);
      [|exact Hvol|].
    2:{ apply (getSection_create_is_Some _ _ _ _ destChunk Hch).
        destruct Havail as [[v Hv]|Hn].
        - left. destruct (ss_voxel _ _ _ _ H01 p v Hv) as [H|(_ & u' & _ & H)];
            apply voxelAt_Some in H as (ch & sec & Hc & Hs & _);
            rewrite Hch in Hc; injection Hc as <-; by rewrite Hs.
        - right. by rewrite (ss_newSection _ _ _ _ H01). }
    rewrite (getSection_after_create a Hdistinct _ _ _ _ _ _ _ _ Hcase) in Hsrc.
    assert (sourceSection' = sourceSection) as ->.
    { unfold getSection in Hsrc, Hsec. rewrite (ss_others _ _ _ _ H01) in Hsrc by done.
      congruence. }
    unfold Written. rewrite Hd, bool_decide_eq_true_2 by done.
    rewrite voxelAt_with_section_same by done.
    change (intersect _ (translated a (chunk_of q) (section_of q)))
      with (cell_inter a (chunk_of q) (section_of q) (chunk_of p) (section_of p)).
    destruct (source_voxel_selected a (chunk_of q) (section_of q) (chunk_of p) (section_of p)
                (mask_and selectionMask (Mask1 true)) p G eq_refl eq_refl eq_refl eq_refl
                (selection_mask_at _ Hm)) as [Hin Hbase].
    unfold written_section, at3. cbn [Blocks Data].
    rewrite !masked_assign_at. rewrite bool_decide_eq_true_2 by exact Hin.
    rewrite !vget_at3. fold q in Hbase. rewrite Hbase.
    apply voxelAt_Some in Hsource as (sch & ssec & Hsc & Hss & ->).
    unfold getSection in Hsec. rewrite Hsc in Hsec. cbn [mbind option_bind] in Hsec.
    assert (ssec = sourceSection) as -> by congruence.
    cbn [fst snd]. by destruct (convertBlocks _ _).
  Qed.

  (** The voxel at [p] holds the converted source voxel once the chunk loop is
      through. *)
Lemma written_run_chunks s1 :
    run_chunks a unmaskedSourceMask convertBlocks (sel_chunkPositions (sourceSelection a)) s0
      = Some s1 →
    voxelAt (dims (world s1) (destDim a)) p = Some (convertBlocks u.1 u.2).
  Proof.
    intros Hrun.
    pose proof Hsource as Hsrc. apply voxelAt_Some in Hsrc as (sch & ssec & Hsc & Hss & _).
    destruct (section_mask (sourceSelection a) (chunk_of q).1 (section_of q) (chunk_of q).2)
      as [selectionMask|] eqn:Hm.
    2:{ pose proof (nomask_contains _ Hwf _ _ _ _ Hm (local_of_in_section q)) as Hn.
        rewrite world_pos_local in Hn. congruence. }
    eapply (reach_run_chunks a unmaskedSourceMask convertBlocks Hdistinct Hwf s0
              (chunk_of q) (section_of q) (chunk_of p) (section_of p) sch ssec selectionMask
              Hsc Hss Hm
              (point_in_cell a _ _ _ _ p eq_refl eq_refl eq_refl eq_refl)
              Hguard Written Written_keep);
      [ | | apply store_step_refl; done | exact Hrun ].
    - intros s2 s3 typeMask H02 [= <-] Hc Hcell.
      eapply (Written_cell ssec selectionMask s2 s3); eauto.
      unfold getSection. by rewrite Hsc.
    - by apply (contains_chunkPositions _ Hwf).
  Qed.
End Written.

(** * The effects of the loop, for any arguments *)

Lemma dim_kept_refl d : dim_kept d d.
Proof. split; [done..|]. intros c ch Hc. exists ch. eauto. Qed.

Lemma dim_kept_with_section d c ch cy sec :
  chunks d !! c = Some ch → dim_kept d (with_section d c ch cy sec).
Proof.
  intros Hch. split; [done..|]. intros c' ch' Hc'. unfold with_section. simpl.
  destruct (decide (c = c')) as [<-|Hne].
  - rewrite lookup_insert_eq. eexists. split; [done|]. simplify_eq. simpl.
    split; [done|]. split; [done|]. intros cy' Hs.
    destruct (decide (cy = cy')) as [<-|Hne]; [by rewrite lookup_insert_eq|].
    by rewrite lookup_insert_ne.
  - rewrite lookup_insert_ne by done. exists ch'. eauto.
Qed.

Lemma dim_kept_new_chunk d c ch :
  chunks d !! c = None → dim_kept d (set_chunks d (<[c := ch]> (chunks d))).
Proof.
  intros Hch. split; [done..|]. intros c' ch' Hc'. simpl.
  rewrite lookup_insert_ne by congruence. exists ch'. eauto.
Qed.

Lemma dim_kept_same_voxels d d' : same_voxels d d' → dim_kept d d'.
Proof.
  intros [B N _ _ S L]. split; [done..|]. intros c ch Hc.
  specialize (S c). specialize (L c). rewrite Hc in S, L. simpl in S, L.
  destruct (chunks d' !! c) as [ch'|]; [|done]. simpl in S, L. simplify_eq.
  exists ch'. split; [done|]. split; [done|]. split; [done|]. by rewrite S.
Qed.

Lemma log_put_section w d cpos cy sec : log (put_section w d cpos cy sec) = log w.
Proof. unfold put_section. by destruct (chunks (dims w d) !! cpos). Qed.

Section Effects.
Context (a : CopyArgs) (makeSourceMask : Arr3 Z → option MaskArr)
          (convertBlocks : Z → Z → Z * Z).

Lemma effects_step_intro s s' d' l m :
    (∀ k, dims (world s') k = if bool_decide (k = destDim a) then d' else dims (world s) k) →
    dim_kept (dims (world s) (destDim a)) d' →
    log (world s') = log (world s) ++ l → Forall (loop_event a) l →
    allChanged s' = allChanged s ++ m →
    (length m ≤ length (filter (λ e, is_write e = true) l))%nat →
    effects_step a s s'.
  Proof.
    intros Hd [B N K] Hl Hf Hm Hlen. split.
    - intros k Hk. by rewrite Hd, bool_decide_eq_false_2.
    - intros k. rewrite Hd. case_bool_decide; [by subst|done].
    - intros k. rewrite Hd. case_bool_decide; [by subst|done].
    - intros k c ch Hc. rewrite Hd. case_bool_decide as Hk.
      + subst k. destruct (K c ch Hc) as (ch' & ? & ? & ? & _). by exists ch'.
      + by exists ch.
    - intros k c cy. unfold getSection. rewrite Hd. case_bool_decide as Hk; [|done].
      subst k. destruct (chunks (dims (world s) (destDim a)) !! c) as [ch|] eqn:Hc;
        [|by intros [? ?]].
      destruct (K c ch Hc) as (ch' & -> & _ & _ & Hs). simpl. apply Hs.
    - by exists l, m.
  Qed.

Lemma effects_step_same_world s s' :
    world s' = world s → allChanged s' = allChanged s → effects_step a s s'.
  Proof.
    intros Hw Ha. apply (effects_step_intro s s' (dims (world s) (destDim a)) [] []).
    - intros k. rewrite Hw. case_bool_decide; [by subst|done].
    - apply dim_kept_refl.
    - by rewrite Hw, app_nil_r.
    - constructor.
    - by rewrite Ha, app_nil_r.
    - done.
  Qed.

Lemma effects_step_refl s : effects_step a s s.
  Proof. by apply effects_step_same_world. Qed.

Lemma effects_step_trans s1 s2 s3 :
    effects_step a s1 s2 → effects_step a s2 s3 → effects_step a s1 s3.
  Proof.
    intros [O1 B1 N1 L1 S1 (l1 & m1 & E1 & F1 & A1 & C1)]
           [O2 B2 N2 L2 S2 (l2 & m2 & E2 & F2 & A2 & C2)]. split.
    - intros k Hk. by rewrite O2, O1.
    - intros k. by rewrite B2.
    - intros k. by rewrite N2.
    - intros k c ch Hc. destruct (L1 k c ch Hc) as (ch1 & H1 & He1 & Ht1).
      destruct (L2 k c ch1 H1) as (ch2 & H2 & He2 & Ht2).
      exists ch2. split; [done|]. split; congruence.
    - eauto.
    - exists (l1 ++ l2), (m1 ++ m2). rewrite E2, E1, app_assoc. split; [done|].
      split; [by apply Forall_app|]. rewrite A2, A1, app_assoc. split; [done|].
      rewrite filter_app, !length_app. lia.
  Qed.

Lemma loop_event_write c cy : loop_event a (EvWrite (destDim a) c cy).
  Proof. by split. Qed.

Lemma effects_step_cell sourceCpos sourceCy sourceMask destBox destCpos destCy s s' :
    copy_cell a convertBlocks sourceCpos sourceCy sourceMask destBox destCpos destCy s = Some s' →
    effects_step a s s'.
  Proof.
    intros Hcell.
    apply copy_cell_Some in Hcell
      as [->|(destChunk & destSection & sourceSection & w1 & cl & Hv & Hch & Hcase & Hsrc & Hshape & ->)];
      [apply effects_step_refl|].
    match goal with |- effects_step _ _ (update_lights _ ?i ?n _ ?t) =>
      set (inter := i); set (nz := n); set (s1 := t) end.
    pose proof (update_lights_log a inter nz cl s1) as Hlog. cbv zeta in Hlog.
    assert (Hl1 : log (world s1) = log (world s) ++ [EvWrite (destDim a) destCpos destCy]).
    { subst s1. cbn [world with_world emit log]. rewrite log_put_section.
      by destruct Hcase as [[_ ->]|(_ & _ & ->)]. }
    pose proof (update_lights_frame a inter nz cl s1) as Hfr. cbv zeta in Hfr.
    assert (∃ l m, log (world (update_lights a inter nz cl s1)) = log (world s) ++ l
                 ∧ Forall (loop_event a) l
                 ∧ allChanged (update_lights a inter nz cl s1) = allChanged s ++ m
                 ∧ (length m ≤ length (filter (λ e, is_write e = true) l))%nat)
      as (l & m & Hl & Hf & Hm & Hlen).
    { destruct (updateLights a) eqn:Hmode.
      - destruct Hlog as [-> ->]. exists [EvWrite (destDim a) destCpos destCy], [].
        split; [exact Hl1|]. split; [repeat constructor|].
        split; [by rewrite app_nil_r|]. simpl. lia.
      - destruct Hlog as [-> [->|(x & y & z & ->)]].
        + exists [EvWrite (destDim a) destCpos destCy], [].
          split; [exact Hl1|]. split; [repeat constructor|].
          split; [by rewrite app_nil_r|]. simpl. lia.
        + rewrite Hl1, <- app_assoc. eexists _, []. split; [done|].
          split; [|split; [by rewrite app_nil_r|simpl; lia]].
          repeat constructor; try done. all: rewrite Hmode; done.
      - destruct Hlog as [-> [->|[c ->]]].
        + exists [EvWrite (destDim a) destCpos destCy], [].
          split; [exact Hl1|]. split; [repeat constructor|].
          split; [by rewrite app_nil_r|]. simpl. lia.
        + exists [EvWrite (destDim a) destCpos destCy], [c].
          split; [exact Hl1|]. split; [repeat constructor|].
          split; [done|]. simpl. lia. }
    eapply effects_step_intro; [| |exact Hl|exact Hf|exact Hm|exact Hlen].
    - intros k. rewrite update_lights_dims. subst s1. cbn [world with_world emit dims].
      apply (put_section_after_create _ _ _ _ _ destSection _ _ Hch Hcase).
    - by apply dim_kept_with_section.
  Qed.

Lemma effects_step_getChunk s c :
    effects_step a s (with_world s (getChunk_create (world s) (destDim a) c)).
  Proof.
    unfold getChunk_create.
    destruct (chunks (dims (world s) (destDim a)) !! c) as [ch|] eqn:Hch.
    { by apply effects_step_same_world. }
    eapply (effects_step_intro _ _ _ [] []); cbn [world with_world].
    - intros k. apply dims_put_chunk.
    - by apply dim_kept_new_chunk.
    - simpl. by rewrite app_nil_r.
    - constructor.
    - simpl. by rewrite app_nil_r.
    - done.
  Qed.

Lemma effects_step_dirty s c :
    effects_step a s (with_world s (mark_dirty (world s) (destDim a) c)).
  Proof.
    unfold mark_dirty.
    destruct (chunks (dims (world s) (destDim a)) !! c) as [ch|] eqn:Hch;
      [|by apply effects_step_same_world].
    eapply (effects_step_intro _ _ _ [] []); cbn [world with_world].
    - intros k. apply dims_put_chunk.
    - apply dim_kept_same_voxels. by apply (same_voxels_replace _ _ ch).
    - simpl. by rewrite app_nil_r.
    - constructor.
    - simpl. by rewrite app_nil_r.
    - done.
  Qed.

Lemma effects_step_biomes s s' c : copy_biomes a c s = Some s' → effects_step a s s'.
  Proof.
    unfold copy_biomes. intros H.
    apply bind_Some in H as (sourceChunk & _ & H).
    apply bind_Some in H as (sourceBiomes & _ & H).
    apply bind_Some in H as (mask & _ & [= <-]).
    eapply (effects_step_intro _ _ _ _ []); cbn [world with_world emit dims log].
    - intros k. apply dims_set_dim.
    - apply dim_kept_same_voxels, same_voxels_setBlocks_Biomes.
    - done.
    - repeat constructor.
    - simpl. by rewrite app_nil_r.
    - simpl. lia.
  Qed.

Lemma effects_step_entities s ch :
    entities a = true → effects_step a s (copy_entities a ch s).
  Proof.
    intros He. unfold copy_entities.
    eapply (effects_step_intro _ _ _ _ []); cbn [world with_world].
    - intros k. rewrite dims_foldl_emit. by case_bool_decide; subst.
    - apply dim_kept_refl.
    - by rewrite log_foldl_emit.
    - apply Forall_fmap, Forall_forall. intros e _. split; [done|]. split; [done|].
      by rewrite He.
    - simpl. by rewrite app_nil_r.
    - simpl. lia.
  Qed.

Lemma effects_step_tileEntities s ch : effects_step a s (copy_tileEntities a ch s).
  Proof.
    unfold copy_tileEntities.
    eapply (effects_step_intro _ _ _ _ []); cbn [world with_world].
    - intros k. rewrite dims_foldl_emit. by case_bool_decide; subst.
    - apply dim_kept_refl.
    - by rewrite log_foldl_emit.
    - apply Forall_fmap, Forall_forall. intros e _. by split.
    - simpl. by rewrite app_nil_r.
    - simpl. lia.
  Qed.

  (** Each primitive step of the loop body is an effects step. *)
Local Ltac effects_prim :=
    intros;
    first [ apply effects_step_refl
          | eapply effects_step_cell; eassumption
          | apply effects_step_getChunk; assumption
          | apply effects_step_dirty
          | eapply effects_step_biomes; eassumption
          | apply effects_step_entities; assumption
          | apply effects_step_tileEntities
          | apply effects_step_same_world; done
          | eapply effects_step_trans; eassumption ].

Lemma effects_step_dest_chunk sourceCpos sourceCy selectionMask typeMask destCpos s s' :
    section_mask (sourceSelection a) sourceCpos.1 sourceCy sourceCpos.2 = Some selectionMask →
    copy_dest_chunk a convertBlocks sourceCpos sourceCy (mask_and selectionMask typeMask)
                    (translated a sourceCpos sourceCy) destCpos s = Some s' →
    effects_step a s s'.
  Proof. apply (R_dest_chunk a convertBlocks (effects_step a)); effects_prim. Qed.

Lemma effects_step_section sourceCpos hasBiomes sourceCy s s' :
    copy_section a makeSourceMask convertBlocks sourceCpos hasBiomes sourceCy s = Some s' →
    effects_step a s s'.
  Proof. apply (R_section a makeSourceMask convertBlocks (effects_step a)); effects_prim. Qed.

Lemma effects_step_process_chunk sourceCpos s s' :
    process_chunk a makeSourceMask convertBlocks sourceCpos s = Some s' →
    effects_step a s s'.
  Proof.
    apply (R_process_chunk a makeSourceMask convertBlocks (effects_step a)); effects_prim.
  Qed.

Lemma effects_step_run_chunks cs s s' :
    run_chunks a makeSourceMask convertBlocks cs s = Some s' →
    effects_step a s s'.
  Proof.
    apply (R_run_chunks a makeSourceMask convertBlocks (effects_step a)); effects_prim.
  Qed.
End Effects.

(** * The generator and the chunk loop *)

Lemma run_chunks_app a mk cv l1 l2 s :
  run_chunks a mk cv (l1 ++ l2) s = run_chunks a mk cv l1 s ≫= run_chunks a mk cv l2.
Proof.
  revert s. induction l1 as [|c l1 IH]; intros s; [done|].
  simpl. destruct (containsChunk _ c); [|apply IH].
  destruct (process_chunk a mk cv c _) as [s1|]; [apply IH|done].
Qed.

Lemma scan_Some dm rest c r :
  scan dm rest = Some (c, r) →
  ∃ skipped, rest = skipped ++ c :: r ∧ containsChunk dm c = true
             ∧ Forall (λ x, containsChunk dm x = false) skipped.
Proof.
  induction rest as [|x rest IH]; [done|]. simpl.
  destruct (containsChunk dm x) eqn:Hx.
  - intros [= -> ->]. by exists [].
  - intros H. destruct (IH H) as (sk & -> & Hc & Hf). exists (x :: sk).
    split; [done|]. split; [done|]. by constructor.
Qed.

Lemma scan_None dm rest :
  scan dm rest = None → Forall (λ x, containsChunk dm x = false) rest.
Proof.
  induction rest as [|x rest IH]; [constructor|]. simpl.
  destruct (containsChunk dm x) eqn:Hx; [done|]. intros H. constructor; auto.
Qed.

Lemma run_chunks_absent a mk cv l s :
  Forall (λ x, containsChunk (dims (world s) (sourceDim a)) x = false) l →
  run_chunks a mk cv l s = Some s.
Proof.
  induction 1 as [|x l Hx _ IH]; [done|]. simpl. by rewrite Hx.
Qed.

Lemma converter_effects lib a s s' :
  effects_step a s s' → converter lib a (world s') = converter lib a (world s).
Proof. intros H. unfold converter. by rewrite !(es_blocktypes _ _ _ H). Qed.

(** The last part of the operation writes nothing and only relights. *)
Lemma finish_Some a s s' :
  finish a s = Some s' →
  i s ≠ 0 ∧ dims (world s') = dims (world s) ∧
  log (world s') = log (world s)
                   ++ match updateLights a with LightsAll => deferred_relights a s | _ => [] end.
Proof.
  unfold finish. case_bool_decide as Hi; [done|].
  destruct (updateLights a); intros [= <-]; (split; [done|]); cbn [world with_world].
  - by rewrite app_nil_r.
  - by rewrite app_nil_r.
  - rewrite dims_foldl_emit. split; [done|].
    by rewrite (log_foldl_emit (λ c, EvRelight (destDim a) c.1.1 c.1.2 c.2)).
Qed.

Section Generator.
Context (lib : BlockTypesModule) (a : CopyArgs).

Lemma touches_dest_refl s : touches_dest a s s.
  Proof. split; [done|]. exists []. by rewrite app_nil_r. Qed.

Lemma touches_dest_trans s1 s2 s3 :
    touches_dest a s1 s2 → touches_dest a s2 s3 → touches_dest a s1 s3.
  Proof.
    intros [O1 (l1 & E1 & F1)] [O2 (l2 & E2 & F2)]. split.
    - intros k Hk. by rewrite O2, O1.
    - exists (l1 ++ l2). rewrite E2, E1, app_assoc. split; [done|]. by apply Forall_app.
  Qed.

Lemma touches_dest_effects s s' : effects_step a s s' → touches_dest a s s'.
  Proof.
    intros [O _ _ _ _ (l & m & E & F & _)]. split; [done|]. exists l. split; [done|].
    eapply Forall_impl; [exact F|]. by intros e [? _].
  Qed.

Lemma touches_dest_finish s s' : finish a s = Some s' → touches_dest a s s'.
  Proof.
    intros (_ & Hd & Hl)%finish_Some. split; [by rewrite Hd|].
    eexists. split; [exact Hl|].
    destruct (updateLights a); try constructor.
    unfold deferred_relights. apply Forall_fmap, Forall_forall. by intros c _.
  Qed.

Lemma touches_dest_next g s o g' s' :
    next lib a g s = Some (o, g', s') → touches_dest a s s'.
  Proof.
    unfold next. destruct g as [pending rest|]; [|intros [= _ _ <-]; apply touches_dest_refl].
    intros H. apply bind_Some in H as (mk & _ & H).
    apply bind_Some in H as (s1 & Hp & H).
    assert (touches_dest a s s1) as H1.
    { destruct pending as [c|]; [|injection Hp as <-; apply touches_dest_refl].
      by eapply touches_dest_effects, effects_step_process_chunk. }
    eapply touches_dest_trans; [exact H1|].
    destruct (scan _ rest) as [[c r]|].
    - injection H as _ _ <-. split; [done|]. exists []. by rewrite app_nil_r.
    - apply bind_Some in H as (s2 & Hf & [= _ _ <-]). by apply touches_dest_finish.
  Qed.

Lemma touches_dest_advance n g s cks g' s' :
    advance lib a n g s = Some (cks, g', s') → touches_dest a s s'.
  Proof.
    revert g s cks g' s'. induction n as [|n IH]; intros g s cks g' s' H.
    - injection H as _ _ <-. apply touches_dest_refl.
    - simpl in H. apply bind_Some in H as ([[o g1] s1] & Hn & H). cbn [fst snd] in H.
      apply touches_dest_next in Hn as H1.
      destruct o.
      + apply bind_Some in H as ([[cks2 g2] s2] & Ha & [= _ _ <-]).
        eapply touches_dest_trans; [exact H1|]. by eapply IH.
      + by injection H as _ _ <-.
  Qed.

  (** Running the generator to its end is the chunk loop followed by the last
      part. *)
Lemma exhaust_run mk fuel : ∀ pending rest s,
    sourceMaskFunc (id_limit lib) (blocksToCopy a) = Some mk →
    (length rest < fuel)%nat →
    exhaust lib a fuel (GRun pending rest) s =
    (s1 ← match pending with
          | Some c => process_chunk a mk (converter lib a (world s)) c s
          | None => Some s
          end;
     s2 ← run_chunks a mk (converter lib a (world s)) rest s1;
     finish a s2).
  Proof.
    induction fuel as [|fuel IH]; intros pending rest s Hmk Hlen; [lia|].
    cbn [exhaust]. unfold next. rewrite Hmk. cbn [mbind option_bind].
    set (P := match pending with Some c => _ | None => Some s end).
    destruct P as [s1|] eqn:HP; [|done]. cbn [mbind option_bind].
    assert (Hcv : converter lib a (world s1) = converter lib a (world s)).
    { subst P. destruct pending as [c|]; [|by injection HP as <-].
      by eapply converter_effects, effects_step_process_chunk. }
    destruct (scan (dims (world s1) (sourceDim a)) rest) as [[c r]|] eqn:Hscan.
    - cbn [mbind option_bind fst snd].
      apply scan_Some in Hscan as (sk & -> & Hc & Hsk).
      rewrite IH; [|done|rewrite length_app in Hlen; simpl in Hlen; lia].
      rewrite run_chunks_app, run_chunks_absent by done. cbn [mbind option_bind run_chunks].
      rewrite Hc. cbn [world with_i]. rewrite Hcv.
      by destruct (process_chunk a mk _ c _).
    - apply scan_None in Hscan. rewrite run_chunks_absent by done.
      cbn [mbind option_bind]. by destruct (finish a s1).
  Qed.

Lemma exhaust_copyBlocks fuel w :
    (length (sel_chunkPositions (sourceSelection a)) < fuel)%nat →
    exhaust lib a fuel (copyBlocksIter a) (frame0 w) = copyBlocks lib a w.
  Proof.
    intros Hlen. unfold copyBlocks, copyBlocksIter.
    destruct (sourceMaskFunc (id_limit lib) (blocksToCopy a)) as [mk|] eqn:Hmk.
    - by rewrite (exhaust_run mk).
    - destruct fuel; [lia|]. cbn [exhaust]. unfold next. by rewrite Hmk.
  Qed.
End Generator.

(** * A box is a well-formed selection *)

Lemma inBox_true b p :
  inBox b p = true ↔ minx b ≤ vx p < maxx b ∧ miny b ≤ vy p < maxy b ∧ minz b ≤ vz p < maxz b.
Proof. unfold inBox. apply bool_decide_eq_true. Qed.

Lemma boxSelection_wf b : Selection_wf (boxSelection b).
Proof.
  split.
  - intros cx cy cz m [[ly lz] lx] Hm _. cbn [boxSelection section_mask contains] in *.
    case_bool_decide; [done|]. by injection Hm as <-.
  - intros cx cy cz [[ly lz] lx] Hm (Hy & Hz & Hx). cbn [boxSelection section_mask contains] in *.
    case_bool_decide as Hv; [|done]. cbn [fst snd] in *.
    destruct (inBox b (world_pos cx cy cz (ly, lz, lx))) eqn:Hin; [|done]. exfalso.
    apply inBox_true in Hin. unfold world_pos in Hin. cbn [vx vy vz fst snd] in Hin.
    revert Hv. unfold intersect, SectionBox, volume, minx, miny, minz, maxx, maxy, maxz, vsub in *.
    cbn -[Z.max Z.min Z.shiftl Z.mul] in *. shifts.
    case_bool_decide as Hd; [exfalso; lia|].
    cbn -[Z.max Z.min Z.mul].
    apply Z.neq_mul_0. split; [apply Z.neq_mul_0; split|]; lia.
  - intros p Hin. cbn [boxSelection contains sel_chunkPositions] in *.
    apply inBox_true in Hin. unfold chunk_of. apply elem_of_chunkPositions.
    unfold mincx, maxcx, mincz, maxcz. shifts. repeat split; zdiv.
Qed.

(** * C1 *)




(** * C9 *)

(** C9 (amended): when the destination is another dimension object than the
    source, the source dimension is, after any number of steps of the
    generator, completion included, exactly what it was: chunks, sections,
    block and data arrays, biome arrays, entity and tile-entity lists; and
    every write and collaborator call of the operation names the
    destination. *)
Theorem source_untouched (lib : BlockTypesModule) (a : CopyArgs) (w : World) (n : nat)
    (cks : list (Z * Z)) (g : Gen) (s : Frame) :
  sourceDim a ≠ destDim a →
  advance lib a n (copyBlocksIter a) (frame0 w) = Some (cks, g, s) →
  dims (world s) (sourceDim a) = dims w (sourceDim a)
  ∧ ∃ l, log (world s) = log w ++ l ∧ Forall (λ e, event_dim e = destDim a) l.
Proof.
  intros Hdistinct Hadv. apply touches_dest_advance in Hadv as [Ho Hl].
  split; [by apply Ho|exact Hl].
Qed.

Lemma source_untouched_witness :
  ∃ cks g s,
    advance demo_lib (demo_args true LightsAll) 2 (copyBlocksIter (demo_args true LightsAll))
            (frame0 demo_world) = Some (cks, g, s)
    ∧ dims (world s) 0%nat = dims demo_world 0%nat
    ∧ ∃ l, log (world s) = log demo_world ++ l ∧ Forall (λ e, event_dim e = 1%nat) l.
Proof.
  destruct (advance demo_lib (demo_args true LightsAll) 2
              (copyBlocksIter (demo_args true LightsAll)) (frame0 demo_world))
    as [[[cks g] s]|] eqn:E; [|vm_compute in E; discriminate].
  exists cks, g, s. split; [reflexivity|].
  apply (source_untouched demo_lib (demo_args true LightsAll) demo_world 2 cks g s).
  - simpl. lia.
  - exact E.
Defined.

(** C9 (as stated) fails when source and destination are one dimension
    object: the copy one step in x overwrites the source voxel (15,0,0). *)
Lemma source_mutated_within_one_dimension :
  ¬ (∀ (lib : BlockTypesModule) (a : CopyArgs) (w : World) (n : nat) cks g s,
       advance lib a n (copyBlocksIter a) (frame0 w) = Some (cks, g, s) →
       dims (world s) (sourceDim a) = dims w (sourceDim a)).
Proof.
  intros H.
  destruct (advance demo_lib overlap_args 2 (copyBlocksIter overlap_args) (frame0 overlap_world))
    as [[[cks g] s]|] eqn:E; [|vm_compute in E; discriminate].
  assert (Hx : (λ r, voxelAt (dims (world r.2) 0%nat) (mkVector 15 0 0))
                 <$> advance demo_lib overlap_args 2 (copyBlocksIter overlap_args)
                       (frame0 overlap_world) = Some (Some (15, 0)))
    by (vm_compute; reflexivity).
  rewrite E in Hx. injection Hx as Hx. cbn [snd] in Hx.
  specialize (H demo_lib overlap_args overlap_world 2%nat cks g s E).
  cbn [sourceDim overlap_args] in H. rewrite H in Hx. vm_compute in Hx. discriminate Hx.
Qed.

(** * C5 *)

Lemma process_chunk_i a mk cv c s s' : process_chunk a mk cv c s = Some s' → i s' = i s.
Proof.
  apply (R_process_chunk a mk cv (λ s s', i s' = i s)).
  - done.
  - intros s1 s2 s3 H1 H2. by rewrite H2.
  - intros sourceCpos sourceCy selectionMask typeMask destCpos destCy s1 s2 _ Hcell.
    apply copy_cell_Some in Hcell as [->|(? & ? & ? & ? & ? & _ & _ & _ & _ & _ & ->)]; [done|].
    match goal with |- i (update_lights _ ?x ?y ?z ?t) = _ =>
      by destruct (update_lights_frame a x y z t) as [-> _] end.
  - done.
  - done.
  - done.
  - intros s1 s2 c0 H. unfold copy_biomes in H.
    apply bind_Some in H as (? & _ & H). apply bind_Some in H as (? & _ & H).
    by apply bind_Some in H as (? & _ & [= <-]).
  - done.
  - done.
Qed.

Lemma checkpoints_cons a first n :
  checkpoints a first (S n) = (first, total_chunks a) :: checkpoints a (first + 1) n.
Proof.
  unfold checkpoints. rewrite seqZ_cons by lia. cbn [fmap list_fmap].
  do 3 f_equal; lia.
Qed.

Lemma next_StopIteration lib a g s g' s' :
  next lib a g s = Some (StopIteration, g', s') → g' = GDone.
Proof.
  unfold next. destruct g as [pending rest|]; [|by intros [= <- _]].
  intros H. apply bind_Some in H as (mk & _ & H). apply bind_Some in H as (s1 & _ & H).
  destruct (scan _ rest) as [[c r]|]; [done|].
  by apply bind_Some in H as (s2 & _ & [= <- _]).
Qed.

Section Checkpoints.
Context (lib : BlockTypesModule) (a : CopyArgs) (w : World)
          (mk : Arr3 Z → option MaskArr).
Hypothesis Hmk : sourceMaskFunc (id_limit lib) (blocksToCopy a) = Some mk.

Lemma at_chunk_boundary_next g s d t g' s' :
    at_chunk_boundary lib a w mk g s →
    next lib a g s = Some (Yield d t, g', s') →
    at_chunk_boundary lib a w mk g' s' ∧ (∃ c rest, g' = GRun (Some c) rest)
    ∧ d = i s + 1 ∧ t = total_chunks a ∧ i s' = i s + 1.
  Proof.
    destruct g as [pending rest|]; [|done].
    intros (pre & s1 & Hcs & Hrun & Hp) Hnext. unfold next in Hnext.
    rewrite Hmk in Hnext. cbn [mbind option_bind] in Hnext.
    apply bind_Some in Hnext as (s2 & Hproc & Hnext).
    assert (run_chunks a mk (converter lib a w)
              (pre ++ match pending with Some c => [c] | None => [] end) (frame0 w) = Some s2
            ∧ i s2 = i s) as [Hrun2 Hi].
    { destruct pending as [c|].
      - destruct Hp as [-> Hc]. rewrite run_chunks_app, Hrun. cbn [mbind option_bind run_chunks].
        rewrite Hc.
        assert (Hcv : converter lib a (world (with_i s1 (i s1 + 1))) = converter lib a w).
        { cbn [world with_i].
          by rewrite (converter_effects lib a _ _ (effects_step_run_chunks a mk _ _ _ _ Hrun)). }
        rewrite Hcv in Hproc. rewrite Hproc. split; [done|]. by eapply process_chunk_i.
      - injection Hproc as <-. subst s. by rewrite app_nil_r. }
    destruct (scan (dims (world s2) (sourceDim a)) rest) as [[c' r']|] eqn:Hscan.
    - injection Hnext as <- <- <- <-.
      apply scan_Some in Hscan as (sk & -> & Hc' & Hsk).
      split; [|split; [eexists _, _; reflexivity|cbn [i with_i]; repeat split; lia]].
      exists ((pre ++ match pending with Some c => [c] | None => [] end) ++ sk), s2.
      split; [|split; [|done]].
      + rewrite Hcs. destruct pending; by rewrite <- !app_assoc.
      + rewrite run_chunks_app, Hrun2. cbn [mbind option_bind]. by apply run_chunks_absent.
    - by apply bind_Some in Hnext as (? & _ & [=]).
  Qed.

Lemma at_chunk_boundary_advance n : ∀ g s cks c rest s',
    at_chunk_boundary lib a w mk g s →
    advance lib a n g s = Some (cks, GRun (Some c) rest, s') →
    at_chunk_boundary lib a w mk (GRun (Some c) rest) s'
    ∧ cks = checkpoints a (i s + 1) n ∧ i s' = i s + Z.of_nat n.
  Proof.
    induction n as [|n IH]; intros g s cks c rest s' Hinv Hadv.
    - injection Hadv as <- -> <-. split; [done|]. split; [done|]. lia.
    - cbn [advance] in Hadv. apply bind_Some in Hadv as ([[o g1] s1] & Hnext & Hadv).
      cbn [fst snd] in Hadv. destruct o as [d t|];
        [|apply next_StopIteration in Hnext; by simplify_eq].
      apply bind_Some in Hadv as ([[cks2 g2] s2] & Hadv & [= <- -> ->]).
      destruct (at_chunk_boundary_next _ _ _ _ _ _ Hinv Hnext) as (Hinv1 & _ & -> & -> & Hi).
      destruct (IH _ _ _ _ _ _ Hinv1 Hadv) as (Hinv2 & -> & Hi2).
      split; [done|]. split; [|lia].
      cbn [fst]. rewrite checkpoints_cons. by rewrite Hi.
  Qed.
End Checkpoints.

(** C5 (amended): the n-th checkpoint is (n, total), and it is emitted before
    its chunk is processed: when the consumer holds it, exactly the chunk
    positions before that chunk have gone through the chunk loop, completely,
    and the chunk itself is fetched and counted but untouched.  The generator
    is suspended at chunk boundaries only. *)
Theorem checkpoint_precedes_chunk (lib : BlockTypesModule) (a : CopyArgs) (w : World)
    (n : nat) (cks : list (Z * Z)) (c : Z * Z) (rest : list (Z * Z)) (s : Frame) :
  advance lib a n (copyBlocksIter a) (frame0 w) = Some (cks, GRun (Some c) rest, s) →
  ∃ pre mk s1,
    sourceMaskFunc (id_limit lib) (blocksToCopy a) = Some mk
    ∧ sel_chunkPositions (sourceSelection a) = pre ++ c :: rest
    ∧ run_chunks a mk (converter lib a w) pre (frame0 w) = Some s1
    ∧ s = with_i s1 (i s1 + 1)
    ∧ containsChunk (dims (world s1) (sourceDim a)) c = true
    ∧ cks = checkpoints a 1 n
    ∧ i s = Z.of_nat n.
Proof.
  intros Hadv.
  destruct (sourceMaskFunc (id_limit lib) (blocksToCopy a)) as [mk|] eqn:Hmk.
  - destruct (at_chunk_boundary_advance lib a w mk Hmk n (copyBlocksIter a) (frame0 w)
                cks c rest s) as ((pre & s1 & Hcs & Hrun & -> & Hc) & Hcks & Hi);
      [by exists [], (frame0 w)|exact Hadv|].
    exists pre, mk, s1. cbn [i frame0] in Hcks, Hi. repeat split; first [done|lia].
  - destruct n as [|n]; [by injection Hadv|].
    cbn [advance] in Hadv. unfold copyBlocksIter, next in Hadv. by rewrite Hmk in Hadv.
Qed.

Lemma checkpoint_precedes_chunk_witness :
  ∃ cks c rest s,
    advance demo_lib (demo_args true LightsAll) 1 (copyBlocksIter (demo_args true LightsAll))
            (frame0 demo_world) = Some (cks, GRun (Some c) rest, s)
    ∧ ∃ pre mk s1,
        sourceMaskFunc (id_limit demo_lib) (blocksToCopy (demo_args true LightsAll)) = Some mk
        ∧ sel_chunkPositions (sourceSelection (demo_args true LightsAll)) = pre ++ c :: rest
        ∧ run_chunks (demo_args true LightsAll) mk
            (converter demo_lib (demo_args true LightsAll) demo_world) pre (frame0 demo_world)
          = Some s1
        ∧ s = with_i s1 (i s1 + 1)
        ∧ containsChunk (dims (world s1) (sourceDim (demo_args true LightsAll))) c = true
        ∧ cks = checkpoints (demo_args true LightsAll) 1 1
        ∧ i s = Z.of_nat 1.
Proof.
  destruct (advance demo_lib (demo_args true LightsAll) 1
              (copyBlocksIter (demo_args true LightsAll)) (frame0 demo_world))
    as [[[cks g] s]|] eqn:E; [|vm_compute in E; discriminate].
  assert (Hg : g = GRun (Some (0, 0)) []).
  { assert ((λ r, r.1.2) <$> advance demo_lib (demo_args true LightsAll) 1
              (copyBlocksIter (demo_args true LightsAll)) (frame0 demo_world)
            = Some (GRun (Some (0, 0)) [])) as Hg by (vm_compute; reflexivity).
    rewrite E in Hg. by injection Hg. }
  subst g. exists cks, (0, 0), [], s. split; [reflexivity|].
  apply (checkpoint_precedes_chunk demo_lib (demo_args true LightsAll) demo_world 1
           cks (0, 0) [] s E).
Defined.

(** C5 (as stated) fails: at the first checkpoint nothing of the first chunk
    has been written, although processing that chunk writes two cells. *)
Lemma checkpoint_emitted_before_processing :
  ¬ (∀ (lib : BlockTypesModule) (a : CopyArgs) (w : World) (n : nat) cks c rest s,
       advance lib a n (copyBlocksIter a) (frame0 w) = Some (cks, GRun (Some c) rest, s) →
       ∃ pre mk s1,
         sourceMaskFunc (id_limit lib) (blocksToCopy a) = Some mk
         ∧ sel_chunkPositions (sourceSelection a) = pre ++ c :: rest
         ∧ run_chunks a mk (converter lib a w) (pre ++ [c]) (frame0 w) = Some s1
         ∧ log (world s) = log (world s1)).
Proof.
  intros H.
  destruct (advance demo_lib (demo_args true LightsAll) 1
              (copyBlocksIter (demo_args true LightsAll)) (frame0 demo_world))
    as [[[cks g] s]|] eqn:E; [|vm_compute in E; discriminate].
  assert (Hg : (λ r, (r.1.2, log (world r.2)))
                 <$> advance demo_lib (demo_args true LightsAll) 1
                       (copyBlocksIter (demo_args true LightsAll)) (frame0 demo_world)
               = Some (GRun (Some (0, 0)) [], [])) by (vm_compute; reflexivity).
  rewrite E in Hg. injection Hg as -> Hlog. cbn [snd] in Hlog.
  destruct (H _ _ _ _ _ _ _ _ E) as (pre & mk & s1 & Hmk & Hcs & Hrun & Hl).
  injection Hmk as <-.
  assert (pre = []) as ->.
  { destruct pre as [|x [|y pre]]; [done|discriminate Hcs|discriminate Hcs]. }
  assert (Hr : (λ r, log (world r))
                 <$> run_chunks (demo_args true LightsAll) unmaskedSourceMask
                       (converter demo_lib (demo_args true LightsAll) demo_world)
                       ([] ++ [(0, 0)]) (frame0 demo_world)
               = Some [EvWrite 1 (0, 0) 0; EvWrite 1 (1, 0) 0;
                       EvSetBiomes 1 [3; 3] [1; 2] [10; 10];
                       EvAddEntity 1 (mkEntityRef (mkVector 15 2 3) 7);
                       EvAddTileEntity 1 (mkEntityRef (mkVector 15 2 3) 8)])
    by (vm_compute; reflexivity).
  rewrite Hrun in Hr. injection Hr as Hr. rewrite <- Hl, Hlog in Hr. discriminate Hr.
Qed.

(** * C4 *)




(** * C7 *)

Section Migration.
Context (a : CopyArgs) (mk : Arr3 Z → option MaskArr) (cv : Z → Z → Z * Z).

Lemma elem_of_log_step s s' e :
    effects_step a s s' → e ∈ log (world s) → e ∈ log (world s').
  Proof.
    intros H Hin. destruct (es_log _ _ _ H) as (l & m & -> & _). apply elem_of_app. by left.
  Qed.

  (** What the processing of one chunk adds to the log for its entities. *)
Lemma process_chunk_migrates c ch s s' e :
    process_chunk a mk cv c s = Some s' →
    chunks (dims (world s) (sourceDim a)) !! c = Some ch →
    contains (sourceSelection a) (Position e) = true →
    (e ∈ TileEntities ch →
     EvAddTileEntity (destDim a) (copyWithOffset e (copyOffset a)) ∈ log (world s'))
    ∧ (entities a = true → e ∈ Entities ch →
       EvAddEntity (destDim a) (copyWithOffset e (copyOffset a)) ∈ log (world s')).
  Proof.
    unfold process_chunk. intros H Hch Hc. rewrite Hch in H. cbn [mbind option_bind] in H.
    set (hasBiomes := biomes a && bool_decide (is_Some (Biomes ch))) in H.
    apply bind_Some in H as (s1 & Hloop & H).
    apply bind_Some in H as (s2 & Hbio & H).
    apply bind_Some in H as (ch2 & Hch2 & [= <-]).
    assert (Hstep : effects_step a s s2).
    { eapply effects_step_trans; [|eapply effects_step_trans].
      - apply (effects_step_same_world a s
                 (if hasBiomes then with_sourceBiomeMask s (Some (λ _ _, false)) else s));
          by destruct hasBiomes.
      - eapply (foldM_rel _ (effects_step a));
          [apply effects_step_refl|apply effects_step_trans| |exact Hloop].
        intros y sa sb _. apply effects_step_section.
      - destruct hasBiomes; [by eapply effects_step_biomes|].
        injection Hbio as <-. apply effects_step_refl. }
    destruct (es_lists _ _ _ Hstep _ _ _ Hch) as (ch2' & Hch2' & He & Ht).
    assert (ch2' = ch2) as -> by congruence.
    split.
    - intros Hin. unfold copy_tileEntities. cbn [world with_world].
      rewrite log_foldl_emit. apply elem_of_app. right.
      apply list_elem_of_fmap. exists e. split; [done|].
      unfold selected. apply list_elem_of_filter. by rewrite Ht.
    - intros Hents Hin. rewrite Hents.
      eapply (elem_of_log_step _ _ _ (effects_step_tileEntities a _ _)).
      unfold copy_entities. cbn [world with_world].
      rewrite log_foldl_emit. apply elem_of_app. right.
      apply list_elem_of_fmap. exists e. split; [done|].
      unfold selected. apply list_elem_of_filter. by rewrite He.
  Qed.

Lemma run_chunks_migrates cs : ∀ c ch s s' e,
    run_chunks a mk cv cs s = Some s' →
    c ∈ cs →
    chunks (dims (world s) (sourceDim a)) !! c = Some ch →
    contains (sourceSelection a) (Position e) = true →
    (e ∈ TileEntities ch →
     EvAddTileEntity (destDim a) (copyWithOffset e (copyOffset a)) ∈ log (world s'))
    ∧ (entities a = true → e ∈ Entities ch →
       EvAddEntity (destDim a) (copyWithOffset e (copyOffset a)) ∈ log (world s')).
  Proof.
    induction cs as [|x cs IH]; intros c ch s s' e Hrun Hin Hch Hc.
    { by apply elem_of_nil in Hin. }
    cbn [run_chunks] in Hrun.
    destruct (decide (x = c)) as [->|Hne].
    - unfold containsChunk in Hrun. rewrite Hch, bool_decide_eq_true_2 in Hrun by eauto.
      apply bind_Some in Hrun as (s1 & Hp & Hrest).
      destruct (process_chunk_migrates c ch _ s1 e Hp Hch Hc) as [H1 H2].
      pose proof (effects_step_run_chunks a mk cv _ _ _ Hrest) as Hstep.
      split; [intros ?|intros ? ?]; eapply elem_of_log_step; eauto.
    - apply elem_of_cons in Hin as [?|Hin]; [congruence|].
      destruct (containsChunk _ x); [|by eapply IH].
      apply bind_Some in Hrun as (s1 & Hp & Hrest).
      pose proof (effects_step_process_chunk a mk cv _ _ _ Hp) as Hstep.
      destruct (es_lists _ _ _ Hstep _ _ _ Hch) as (ch1 & Hch1 & He & Ht).
      rewrite <- He, <- Ht. by eapply IH.
  Qed.
End Migration.

(** C7: in every copy run to completion, each tile entity of a visited source
    chunk whose Position the selection contains is cloned with the
    translation offset and handed to the destination, whatever the
    entity-copy flag says; each such ordinary entity is, when the flag is
    enabled; and when the flag is disabled no ordinary entity is handed to
    the destination at all. *)
Theorem entity_migration (lib : BlockTypesModule) (a : CopyArgs) (w : World) (s' : Frame) :
  copyBlocks lib a w = Some s' →
  (∀ c ch e, c ∈ sel_chunkPositions (sourceSelection a) →
             chunks (dims w (sourceDim a)) !! c = Some ch →
             e ∈ TileEntities ch →
             contains (sourceSelection a) (Position e) = true →
             EvAddTileEntity (destDim a) (copyWithOffset e (copyOffset a)) ∈ log (world s'))
  ∧ (entities a = true →
     ∀ c ch e, c ∈ sel_chunkPositions (sourceSelection a) →
               chunks (dims w (sourceDim a)) !! c = Some ch →
               e ∈ Entities ch →
               contains (sourceSelection a) (Position e) = true →
               EvAddEntity (destDim a) (copyWithOffset e (copyOffset a)) ∈ log (world s'))
  ∧ (entities a = false →
     ∃ l, log (world s') = log w ++ l ∧ Forall (λ e, is_addEntity e = false) l).
Proof.
  intros Hcopy. unfold copyBlocks in Hcopy.
  apply bind_Some in Hcopy as (mk & Hmk & Hcopy).
  apply bind_Some in Hcopy as (s1 & Hrun & Hfin).
  apply finish_Some in Hfin as (_ & Hdims & Hlog).
  assert (Hsub : ∀ e, e ∈ log (world s1) → e ∈ log (world s')).
  { intros e He. rewrite Hlog. apply elem_of_app. by left. }
  split; [|split].
  - intros c ch e Hc Hch He Hin. apply Hsub.
    by apply (run_chunks_migrates a mk _ _ c ch _ _ e Hrun Hc Hch Hin).
  - intros Hents c ch e Hc Hch He Hin. apply Hsub.
    by apply (run_chunks_migrates a mk _ _ c ch _ _ e Hrun Hc Hch Hin).
  - intros Hents.
    destruct (es_log _ _ _ (effects_step_run_chunks a mk _ _ _ _ Hrun))
      as (l & m & Hl & Hf & _).
    cbn [world frame0] in Hl. eexists. rewrite Hlog, Hl, <- app_assoc. split; [done|].
    apply Forall_app. split.
    + eapply Forall_impl; [exact Hf|]. intros e (_ & _ & He). by apply He.
    + destruct (updateLights a); try constructor.
      unfold deferred_relights. apply Forall_fmap, Forall_forall. by intros c _.
Qed.

Lemma entity_migration_witness :
  ∃ s', copyBlocks demo_lib (demo_args false LightsOff) demo_world = Some s'
    ∧ EvAddTileEntity 1 (copyWithOffset (mkEntityRef (mkVector 1 2 3) 8)
                           (copyOffset (demo_args false LightsOff))) ∈ log (world s')
    ∧ ∃ l, log (world s') = log demo_world ++ l ∧ Forall (λ e, is_addEntity e = false) l.
Proof.
  destruct (copyBlocks demo_lib (demo_args false LightsOff) demo_world) as [s'|] eqn:E;
    [|vm_compute in E; discriminate].
  exists s'. split; [reflexivity|].
  destruct (entity_migration demo_lib (demo_args false LightsOff) demo_world s' E)
    as (Ht & _ & Hoff).
  split.
  - apply (Ht (0, 0) demo_sourceChunk (mkEntityRef (mkVector 1 2 3) 8)).
    + vm_compute. left.
    + reflexivity.
    + left.
    + vm_compute. reflexivity.
  - apply Hoff. reflexivity.
Defined.

(** * C8, at an offset that is no multiple of 16 *)

Lemma slices_same_extent_witness :
  volume (cell_inter (demo_args true LightsOff) (0, 0) 0 (1, 0) 0) ≠ 0
  ∧ shape (subarray (sourceSlices_of
                       (cell_sourceIntersect (demo_args true LightsOff)
                          (cell_inter (demo_args true LightsOff) (0, 0) 0 (1, 0) 0))
                       (0, 0) 0))
    = shape (subarray (destSlices_of (cell_inter (demo_args true LightsOff) (0, 0) 0 (1, 0) 0)
                                     (1, 0) 0))
  ∧ shape (subarray (destSlices_of (cell_inter (demo_args true LightsOff) (0, 0) 0 (1, 0) 0)
                                   (1, 0) 0))
    = (vy (size (cell_inter (demo_args true LightsOff) (0, 0) 0 (1, 0) 0)),
       vz (size (cell_inter (demo_args true LightsOff) (0, 0) 0 (1, 0) 0)),
       vx (size (cell_inter (demo_args true LightsOff) (0, 0) 0 (1, 0) 0))).
Proof.
  split; [vm_compute; discriminate|].
  apply (slices_same_extent (demo_args true LightsOff) (0, 0) 0 (1, 0) 0).
  vm_compute. discriminate.
Defined.

(** * C10 *)

Lemma foldM_total {A S} (f : A → S → option S) (Inv : S → Prop) l s :
  (∀ x s, x ∈ l → Inv s → ∃ s', f x s = Some s' ∧ Inv s') →
  Inv s → ∃ s', foldM f l s = Some s' ∧ Inv s'.
Proof.
  revert s. induction l as [|x l IH]; intros s Hstep Hs; [by exists s|].
  destruct (Hstep x s) as (s1 & Hx & H1); [by left|done|].
  destruct (IH s1) as (s2 & Hl & H2); [|done|].
  { intros y s3 Hy. apply Hstep. by right. }
  exists s2. simpl. by rewrite Hx.
Qed.

(** A cell step returns whenever the destination chunk and the source section
    are there: the two views have one shape. *)
Lemma copy_cell_total a cv sourceCpos sourceCy sourceMask destCpos destCy s :
  is_Some (chunks (dims (world s) (destDim a)) !! destCpos) →
  is_Some (getSection (world s) (sourceDim a) sourceCpos sourceCy) →
  is_Some (copy_cell a cv sourceCpos sourceCy sourceMask (translated a sourceCpos sourceCy)
                     destCpos destCy s).
Proof.
  intros [destChunk Hch] Hsrc. unfold copy_cell.
  case_bool_decide as Hv; [by eexists|].
  rewrite Hch. cbn [mbind option_bind].
  destruct (getSection_create (world s) (destDim a) destCpos destCy)
    as [[destSection w1]|] eqn:Hg; [|by eexists].
  apply getSection_create_Some in Hg as (ch & Hch' & _ & Hcase).
  assert (ch = destChunk) as -> by congruence.
  assert (is_Some (getSection w1 (sourceDim a) sourceCpos sourceCy)) as [sourceSection Hs].
  { destruct Hcase as [[_ ->]|(Hn & _ & ->)]; [done|].
    unfold getSection in *. rewrite dims_put_chunk.
    case_bool_decide as Hk; [|done]. rewrite Hk in Hsrc. cbn [chunks set_chunks].
    destruct (decide (destCpos = sourceCpos)) as [<-|Hne];
      [|by rewrite lookup_insert_ne].
    rewrite lookup_insert_eq. rewrite Hch in Hsrc. cbn [mbind option_bind sections set_sections] in *.
    destruct (decide (destCy = sourceCy)) as [<-|Hne];
      [by rewrite lookup_insert_eq|by rewrite lookup_insert_ne]. }
  rewrite Hs. cbn [mbind option_bind]. unfold write_cell.
  destruct (cell_geometry_of a sourceCpos sourceCy destCpos destCy Hv)
    as [_ _ _ Hdv Hsv _ _].
  change (intersect _ (translated a sourceCpos sourceCy))
    with (cell_inter a sourceCpos sourceCy destCpos destCy).
  rewrite Hdv, Hsv.
  rewrite bool_decide_eq_true_2 by reflexivity. by eexists.
Qed.



(** * C2 and C3: what the code does at the failing inputs *)

(** C2: the voxel (1,2,3) is written and its opacity changes, and the relight
    call receives the triple (2,3,1): the index arrays of [nonzero()] come in
    the order of the array axes, [y][z][x], and are taken for x, y, z. *)
Theorem relight_coordinates_permuted :
  (λ s, (log (world s), voxelAt (dims (world s) 1%nat) (mkVector 1 2 3)))
    <$> copyBlocks demo_lib relight_args demo_world
  = Some ([EvWrite 1 (0, 0) 0; EvRelight 1 [2] [3] [1];
           EvAddTileEntity 1 (mkEntityRef (mkVector 1 2 3) 8)],
          Some (50, 2))
  ∧ voxelAt (dims demo_world 1%nat) (mkVector 1 2 3) = None.
Proof. split; vm_compute; reflexivity. Qed.

(** C3: the selected column (2,2) of the source has biome 9 and the copy goes
    16 blocks in x; afterwards the destination column (18,2) still has its
    biome 1, and the destination column (2,2), which is not the translated
    one, has biome 9: the biome write takes the source columns as they are. *)
Theorem biome_copy_not_translated :
  (λ s, (biomeAt (dims (world s) 1%nat) 18 2, biomeAt (dims (world s) 1%nat) 2 2))
    <$> copyBlocks demo_lib biome_args demo_world
  = Some (Some 1, Some 9)
  ∧ biomeAt (dims demo_world 0%nat) 2 2 = Some 9
  ∧ biomeAt (dims demo_world 1%nat) 2 2 = Some 1
  ∧ copyOffset biome_args = mkVector 16 0 0.
Proof. repeat split; vm_compute; reflexivity. Qed.
